(** * Sharpness-Aware Minimization: a model of [optimizer.py]

    The file [optimizer.py] holds an optimizer factory, [select_optimizer],
    and the class [SAM], a wrapper around a base optimizer of [torch.optim].
    The methods of [SAM] mutate parameter tensors, the per-parameter state
    dictionary and the attributes of the optimizer object, and they raise
    Python exceptions.  They are embedded here as computations of a state
    and exception monad over a [World] that holds those objects.

    Tensor elements are kept abstract: the class [Scalar] lists the
    element arithmetic the source uses, and the statements hold for every
    instance of it.  The instance the model runs on is binary64 floating
    point, with its rounding, overflow, infinities and NaN.  The 2-norm of
    a tensor is an operation of the library, see [Torch]. *)

From Stdlib Require Import PrimFloat.
From Stdlib Require Import SpecFloat FloatOps FloatAxioms.
From stdpp Require Import gmap strings list.

(** ** Scalars and tensors *)

(** The element arithmetic of the source, with the literals it writes.
    [s_div x y] is [x / y] for the Python float [x] and the
    zero-dimensional tensor [y] of line 41.  The square root serves the
    norm by the book, [t_norm]. *)
Class Scalar (T : Type) := {
  s_zero : T;                      (* 0.0 *)
  s_one : T;                       (* 1.0 *)
  s_eps : T;                       (* 1e-12 *)
  s_rho_default : T;               (* 0.05 *)
  s_add : T → T → T;
  s_mul : T → T → T;
  s_div : T → T → T;
  s_abs : T → T;
  s_sqrt : T → T;
  s_geb : T → T → bool             (* x >= y *)
}.

(** Python floats and float64 tensors: IEEE binary64, rounding to
    nearest.  [1e-12] and [0.05] are the doubles nearest to the decimal
    literals.  Tensors of another dtype are another instance. *)
#[global] Instance float_scalar : Scalar float := {|
  s_zero := 0%float;
  s_one := 1%float;
  s_eps := 0x1.19799812dea11p-40%float;
  s_rho_default := 0x1.999999999999ap-5%float;
  s_add := PrimFloat.add;
  s_mul := PrimFloat.mul;
  s_div := PrimFloat.div;
  s_abs := PrimFloat.abs;
  s_sqrt := PrimFloat.sqrt;
  s_geb := λ x y, PrimFloat.leb y x
|}.

(** A tensor is the list of its elements; shapes are not modelled, and the
    gradient of a parameter has as many elements as the parameter. *)
Abbreviation Tensor T := (list T) (only parsing).

Section tensor_ops.
Context {T : Type} `{Scalar T}.

(** [c * x] for a Python float [c]. *)
Definition t_scale (c : T) (x : Tensor T) : Tensor T := map (s_mul c) x.

(** [x * s] for a zero-dimensional tensor [s]. *)
Definition t_mul_scalar (x : Tensor T) (s : T) : Tensor T :=
  map (λ xi, s_mul xi s) x.

(** [x * y], element-wise. *)
Definition t_mul (x y : Tensor T) : Tensor T := zip_with s_mul x y.

(** [x + y], element-wise. *)
Definition t_add (x y : Tensor T) : Tensor T := zip_with s_add x y.

(** [torch.abs(x)]. *)
Definition t_abs (x : Tensor T) : Tensor T := map s_abs x.

(** [torch.pow(x, 2)]. *)
Definition t_pow2 (x : Tensor T) : Tensor T := map (λ xi, s_mul xi xi) x.

(** [torch.zeros_like(x)], what [x.zero_()] leaves in [x]. *)
Definition t_zeros_like (x : Tensor T) : Tensor T := map (λ _, s_zero) x.

Definition sum_squares (x : Tensor T) : T :=
  foldl (λ acc xi, s_add acc (s_mul xi xi)) s_zero x.

(** The 2-norm by the book: the square root of the sum of the squares,
    added up from left to right. *)
Definition t_norm (x : Tensor T) : T := s_sqrt (sum_squares x).
End tensor_ops.

(** ** Objects *)

(** Object identities. *)
Abbreviation loc := positive (only parsing).

(** Values of hyperparameters ([lr], [momentum], [betas], ...). *)
Inductive HVal (T : Type) : Type :=
  | HFloat (x : T)
  | HPair (x y : T)
  | HBool (b : bool).
Arguments HFloat {T} x.
Arguments HPair {T} x y.
Arguments HBool {T} b.

Abbreviation Kwargs T := (gmap string (HVal T)) (only parsing).

(** A [torch.nn.Parameter]: [p.data], [p.grad] (absent is [None]) and
    [p.device]. *)
Record Param (T : Type) : Type := mkParam {
  data : Tensor T;
  grad : option (Tensor T);
  device : nat
}.
Arguments mkParam {T} data grad device.
Arguments data {T} p.
Arguments grad {T} p.
Arguments device {T} p.

#[global] Instance Param_inhabited {T} : Inhabited (Param T) :=
  populate (mkParam [] None 0).

(** A parameter group: the dictionary with the keys ["params"], ["rho"],
    ["adaptive"] and the hyperparameters of the base optimizer. *)
Record Group (T : Type) : Type := mkGroup {
  params : list loc;
  rho : T;
  adaptive : bool;
  hyper : Kwargs T
}.
Arguments mkGroup {T} params rho adaptive hyper.
Arguments params {T} g.
Arguments rho {T} g.
Arguments adaptive {T} g.
Arguments hyper {T} g.

(** What this file reads and writes of an optimizer object of
    [torch.optim]: the reference in [param_groups] and [defaults]. *)
Record Optimizer (T : Type) : Type := mkOptimizer {
  opt_param_groups : loc;
  opt_defaults : Kwargs T
}.
Arguments mkOptimizer {T} opt_param_groups opt_defaults.
Arguments opt_param_groups {T} o.
Arguments opt_defaults {T} o.

(** The first argument of an optimizer constructor: the parameters of a
    model, or a list object that holds parameter groups. *)
Inductive ParamsArg : Type :=
  | ParamList (ps : list loc)
  | GroupList (l : loc).

(** The store.  [tensors] holds the parameter objects and [lists] the list
    objects behind [param_groups] attributes, so that two attributes may
    name one list.  The [self_] fields are the attributes of the [SAM]
    instance.  [grad_mode] is the autograd switch of [torch.no_grad] and
    [torch.enable_grad].  [ext] stands for every other object: the model,
    the loss, the internals of the base optimizer. *)
Record World (T E : Type) : Type := mkWorld {
  tensors : gmap loc (Param T);
  lists : gmap loc (list (Group T));
  self_param_groups : loc;
  self_state : gmap loc (gmap string (Tensor T));
  self_defaults : Kwargs T;
  self_base_optimizer : Optimizer T;
  grad_mode : bool;
  ext : E
}.
Arguments mkWorld {T E}.
Arguments tensors {T E} w.
Arguments lists {T E} w.
Arguments self_param_groups {T E} w.
Arguments self_state {T E} w.
Arguments self_defaults {T E} w.
Arguments self_base_optimizer {T E} w.
Arguments grad_mode {T E} w.
Arguments ext {T E} w.

Section setters.
Context {T E : Type}.
Implicit Types w : World T E.

Definition set_tensors (f : gmap loc (Param T) → gmap loc (Param T)) w :=
  mkWorld (f (tensors w)) (lists w) (self_param_groups w) (self_state w)
    (self_defaults w) (self_base_optimizer w) (grad_mode w) (ext w).

Definition set_self_param_groups (l : loc) w :=
  mkWorld (tensors w) (lists w) l (self_state w)
    (self_defaults w) (self_base_optimizer w) (grad_mode w) (ext w).

Definition set_self_state
    (f : gmap loc (gmap string (Tensor T)) → gmap loc (gmap string (Tensor T))) w :=
  mkWorld (tensors w) (lists w) (self_param_groups w) (f (self_state w))
    (self_defaults w) (self_base_optimizer w) (grad_mode w) (ext w).

Definition set_self_defaults (d : Kwargs T) w :=
  mkWorld (tensors w) (lists w) (self_param_groups w) (self_state w)
    d (self_base_optimizer w) (grad_mode w) (ext w).

Definition set_self_base_optimizer (o : Optimizer T) w :=
  mkWorld (tensors w) (lists w) (self_param_groups w) (self_state w)
    (self_defaults w) o (grad_mode w) (ext w).

Definition set_grad_mode (b : bool) w :=
  mkWorld (tensors w) (lists w) (self_param_groups w) (self_state w)
    (self_defaults w) (self_base_optimizer w) b (ext w).
End setters.

(** ** Exceptions and the monad *)

Inductive Exn : Type :=
  | AssertionError (msg : string)
  | ValueError (msg : string)
  | KeyError (key : string)
  | IndexError
  | RuntimeError (msg : string)
  | Foreign (tag : string).       (* raised by code outside the file *)

Inductive Outcome (A : Type) : Type :=
  | Returns (a : A)
  | Raises (e : Exn).
Arguments Returns {A} a.
Arguments Raises {A} e.

(** A computation runs on a world and ends in a world, whether it returns
    or raises: the writes made before an exception stay. *)
Definition M (T E A : Type) : Type := World T E → Outcome A * World T E.

Section monad.
Context {T E : Type}.

#[global] Instance M_ret : MRet (M T E) := λ A a w, (Returns a, w).

#[global] Instance M_bind : MBind (M T E) := λ A B f m w,
  match m w with
  | (Returns a, w') => f a w'
  | (Raises e, w') => (Raises e, w')
  end.

#[global] Instance M_fmap : FMap (M T E) := λ A B f m w,
  match m w with
  | (Returns a, w') => (Returns (f a), w')
  | (Raises e, w') => (Raises e, w')
  end.

Definition raise {A} (e : Exn) : M T E A := λ w, (Raises e, w).
Definition gets {A} (f : World T E → A) : M T E A := λ w, (Returns (f w), w).
Definition modify (f : World T E → World T E) : M T E unit :=
  λ w, (Returns (), f w).

(** [for x in l: body(x)]. *)
Fixpoint for_each {A} (l : list A) (body : A → M T E unit) : M T E unit :=
  match l with
  | [] => mret ()
  | x :: l' => body x ;; for_each l' body
  end.

(** [if c: m]. *)
Definition when (c : bool) (m : M T E unit) : M T E unit :=
  if c then m else mret ().

(** [assert c, msg]. *)
Definition assert (c : bool) (msg : string) : M T E unit :=
  if c then mret () else raise (AssertionError msg).

(** [l[i]] on a Python list. *)
Definition index {A} (l : list A) (i : nat) : M T E A :=
  match l !! i with
  | Some x => mret x
  | None => raise IndexError
  end.

(** The context managers [torch.no_grad()] and [torch.enable_grad()], as
    decorators: the switch is set for the call and put back on the way
    out, also when the call raises. *)
Definition with_grad_mode {A} (b : bool) (m : M T E A) : M T E A := λ w,
  let '(r, w') := m (set_grad_mode b w) in
  (r, set_grad_mode (grad_mode w) w').

Definition no_grad {A} (m : M T E A) : M T E A := with_grad_mode false m.
Definition enable_grad {A} (m : M T E A) : M T E A := with_grad_mode true m.
End monad.

(** ** The library the file calls

    [torch.optim] and [adabelief_pytorch] are not part of the repository.
    What the source calls of them is an interface here: a statement about
    [SAM] or [select_optimizer] holds for every implementation of it. *)
Class Torch (T E : Type) := {
  (** [torch.optim.Optimizer.__init__(self, params, defaults)], run on the
      [SAM] instance by [super().__init__]. *)
  Optimizer___init__ : ParamsArg → Kwargs T → M T E unit;
  (** The argument of [load_state_dict] and
      [torch.optim.Optimizer.load_state_dict(self, state_dict)]. *)
  StateDict : Type;
  Optimizer_load_state_dict : StateDict → M T E unit;
  (** [step()] of an optimizer object of the library. *)
  optimizer_step : Optimizer T → M T E unit;
  (** [x.norm(p=2)] and [torch.norm(x, p=2)].  How the kernel adds up the
      squares, and so how the norm rounds and when it overflows, is the
      library's business. *)
  torch_norm : Tensor T → T;
  (** The default of [set_to_none] in [Optimizer.zero_grad], which differs
      between releases of the library. *)
  set_to_none : bool;
  (** The constructors [optim.SGD], [optim.Adam], [optim.AdamW] and
      [AdaBelief], called as [C(params, **kwargs)]. *)
  optim_SGD : ParamsArg → Kwargs T → M T E (Optimizer T);
  optim_Adam : ParamsArg → Kwargs T → M T E (Optimizer T);
  optim_AdamW : ParamsArg → Kwargs T → M T E (Optimizer T);
  AdaBelief : ParamsArg → Kwargs T → M T E (Optimizer T)
}.

(** What [select_optimizer] returns: an optimizer object of the library,
    or the [SAM] instance of the world. *)
Inductive Selected (T : Type) : Type :=
  | Library (o : Optimizer T)
  | SAM_instance.
Arguments Library {T} o.
Arguments SAM_instance {T}.

Section program.
Context {T E : Type} `{Scalar T} `{Torch T E}.

Local Abbreviation M := (M T E).

(** *** Attribute and item access *)

(** [self.param_groups], the list the attribute names.  Every reference
    of a Python program names an object; here a reference that names none
    reads as the empty list, and as a parameter without data or gradient
    in [get_param]. *)
Definition get_param_groups : M (list (Group T)) :=
  gets (λ w, lists w !!! self_param_groups w).

(** The parameter object [p]. *)
Definition get_param (p : loc) : M (Param T) :=
  gets (λ w, tensors w !!! p).

(** [p.data = v] and [p.add_(e)], which write the data of [p]. *)
Definition set_data (p : loc) (v : Tensor T) : M unit :=
  modify (set_tensors (λ h,
    <[p := mkParam v (grad (h !!! p)) (device (h !!! p))]> h)).

(** [p.grad = g]. *)
Definition set_grad (p : loc) (g : option (Tensor T)) : M unit :=
  modify (set_tensors (λ h,
    <[p := mkParam (data (h !!! p)) g (device (h !!! p))]> h)).

(** [self.state[p][key] = v].  [self.state] is a [defaultdict(dict)]:
    a missing entry for [p] starts as the empty dictionary. *)
Definition state_setitem (p : loc) (key : string) (v : Tensor T) : M unit :=
  modify (set_self_state (λ st, <[p := <[key := v]> (default ∅ (st !! p))]> st)).

(** [self.state[p][key]]: the entry for [p] is created when it is
    missing, then a missing [key] raises [KeyError]. *)
Definition state_getitem (p : loc) (key : string) : M (Tensor T) :=
  d ← gets (λ w, default ∅ (self_state w !! p)) ;
  modify (set_self_state (λ st, <[p := d]> st)) ;;
  match d !! key with
  | Some v => mret v
  | None => raise (KeyError key)
  end.

(** [torch.stack(l)] of zero-dimensional tensors: the library refuses an
    empty list. *)
Definition torch_stack (l : list T) : M (Tensor T) :=
  match l with
  | [] => raise (RuntimeError "stack expects a non-empty TensorList")
  | _ => mret l
  end.

(** [x.to(device)] keeps the value. *)
Definition to_device (d : nat) (x : T) : T := x.

(** [self.zero_grad()], as [torch.optim.Optimizer] defines it: the
    gradient of every parameter of every group that has one is dropped,
    or zeroed in place, by [set_to_none]. *)
Definition zero_grad : M unit :=
  groups ← get_param_groups ;
  for_each groups (λ group,
    for_each (params group) (λ p,
      P ← get_param p ;
      match grad P with
      | None => mret ()
      | Some g =>
          if set_to_none then set_grad p None
          else set_grad p (Some (t_zeros_like g))
      end)).

(** *** class SAM *)

(** [SAM.__init__(self, params, base_optimizer, rho, adaptive, **kwargs)],
    lines 27-35.  The message of the assertion ends in the value of [rho],
    which is left out here. *)
Definition __init__ (params : ParamsArg)
    (base_optimizer : ParamsArg → Kwargs T → M (Optimizer T))
    (rho : T) (adaptive : bool) (kwargs : Kwargs T) : M unit :=
  assert (s_geb rho s_zero) "Invalid rho, should be non-negative" ;;
  let defaults := <["rho" := HFloat rho]> (<["adaptive" := HBool adaptive]> kwargs) in
  Optimizer___init__ params defaults ;;
  pg ← gets self_param_groups ;
  b ← base_optimizer (GroupList pg) kwargs ;
  modify (set_self_base_optimizer b) ;;
  modify (λ w, set_self_param_groups (opt_param_groups (self_base_optimizer w)) w) ;;
  modify (λ w, set_self_defaults
                 (opt_defaults (self_base_optimizer w) ∪ self_defaults w) w).

(** The weighted gradient whose norm a parameter contributes, line 75. *)
Definition weighted_grad (adaptive : bool) (P : Param T) (g : Tensor T) : Tensor T :=
  if adaptive then t_mul (t_abs (data P)) g else t_scale s_one g.

(** The list comprehension of lines 75-77 over the groups [gs]. *)
Definition grad_norms (h : gmap loc (Param T)) (shared_device : nat)
    (gs : list (Group T)) : list T :=
  group ← gs ;
  p ← params group ;
  match grad (h !!! p) with
  | Some g =>
      [to_device shared_device (torch_norm (weighted_grad (adaptive group) (h !!! p) g))]
  | None => []
  end.

(** [SAM._grad_norm(self)], lines 71-81. *)
Definition _grad_norm : M T :=
  groups ← get_param_groups ;
  group0 ← index groups 0 ;
  p0 ← index (params group0) 0 ;
  P0 ← get_param p0 ;
  let shared_device := device P0 in
  norms ← gets (λ w, grad_norms (tensors w) shared_device groups) ;
  stacked ← torch_stack norms ;
  mret (torch_norm stacked).

(** The perturbation [e_w] of line 46. *)
Definition e_w (adaptive : bool) (P : Param T) (g : Tensor T) (scale : T) : Tensor T :=
  t_mul_scalar
    (if adaptive then t_mul (t_pow2 (data P)) g else t_scale s_one g)
    scale.

(** The body of the loop over the parameters of a group, lines 44-47. *)
Definition perturb (group : Group T) (scale : T) (p : loc) : M unit :=
  P ← get_param p ;
  match grad P with
  | None => mret ()
  | Some g =>
      state_setitem p "old_p" (data P) ;;
      set_data p (t_add (data P) (e_w (adaptive group) P g scale))
  end.

(** [SAM.first_step(self, zero_grad)], lines 37-49. *)
Definition first_step (zero_grad_flag : bool) : M unit :=
  no_grad (
    grad_norm ← _grad_norm ;
    groups ← get_param_groups ;
    for_each groups (λ group,
      let scale := s_div (rho group) (s_add grad_norm s_eps) in
      for_each (params group) (perturb group scale)) ;;
    when zero_grad_flag zero_grad).

(** The body of the loop of lines 55-56.  Tensors are values here: that
    the assignment makes [p.data] and the snapshot one tensor object,
    which a later in-place update would change together, shows only in
    what [optimizer_step] may do to the world. *)
Definition restore (p : loc) : M unit :=
  P ← get_param p ;
  match grad P with
  | None => mret ()
  | Some _ =>
      old_p ← state_getitem p "old_p" ;
      set_data p old_p
  end.

(** The loops of lines 53-56. *)
Definition restore_all : M unit :=
  groups ← get_param_groups ;
  for_each groups (λ group, for_each (params group) restore).

(** [self.base_optimizer.step()]. *)
Definition base_optimizer_step : M unit :=
  b ← gets self_base_optimizer ;
  optimizer_step b.

(** [SAM.second_step(self, zero_grad)], lines 51-60. *)
Definition second_step (zero_grad_flag : bool) : M unit :=
  no_grad (
    restore_all ;;
    base_optimizer_step ;;
    when zero_grad_flag zero_grad).

(** [SAM.step(self, closure)], lines 62-69.  A closure is a computation;
    [None] is the default of the argument. *)
Definition step (closure : option (M unit)) : M unit :=
  no_grad (
    match closure with
    | None =>
        raise (AssertionError
          "Sharpness Aware Minimization requires closure, but it was not provided")
    | Some closure =>
        let closure := enable_grad closure in
        first_step true ;;
        closure ;;
        second_step false
    end).

(** [SAM.load_state_dict(self, state_dict)], lines 83-85. *)
Definition load_state_dict (state_dict : StateDict) : M unit :=
  Optimizer_load_state_dict state_dict ;;
  modify (λ w, set_self_base_optimizer
                 (mkOptimizer (self_param_groups w)
                              (opt_defaults (self_base_optimizer w))) w).

(** *** select_optimizer, lines 5-23 *)

(** [SAM(params, base_optimizer, **kwargs)]: [rho] and [adaptive] take
    their defaults, [0.05] and [False]. *)
Definition SAM (params : ParamsArg)
    (base_optimizer : ParamsArg → Kwargs T → M (Optimizer T))
    (kwargs : Kwargs T) : M (Selected T) :=
  __init__ params base_optimizer s_rho_default false kwargs ;;
  mret SAM_instance.

(** [model] is the list [model.parameters()] yields.  The defaults of
    [momentum] and [betas] are filled in by the caller. *)
Definition select_optimizer (optimizer_name : string) (model : list loc)
    (learning_rate momentum : T) (betas : T * T) : M (Selected T) :=
  let lr := HFloat learning_rate in
  let mom := HFloat momentum in
  let bet := HPair betas.1 betas.2 in
  if String.eqb optimizer_name "SGD" then
    Library <$> optim_SGD (ParamList model) {["lr" := lr]}
  else if String.eqb optimizer_name "momentum" then
    Library <$> optim_SGD (ParamList model) (<["momentum" := mom]> {["lr" := lr]})
  else if String.eqb optimizer_name "Adam" then
    Library <$> optim_Adam (ParamList model) (<["betas" := bet]> {["lr" := lr]})
  else if String.eqb optimizer_name "AdamW" then
    Library <$> optim_AdamW (ParamList model) (<["betas" := bet]> {["lr" := lr]})
  else if String.eqb optimizer_name "AdaBelief" then
    Library <$> AdaBelief (ParamList model) (<["betas" := bet]> {["lr" := lr]})
  else if String.eqb optimizer_name "SAM" then
    let base_optimizer := optim_SGD in
    SAM (ParamList model) base_optimizer (<["momentum" := mom]> {["lr" := lr]})
  else if String.eqb optimizer_name "SAM_Adam" then
    let base_optimizer := optim_Adam in
    SAM (ParamList model) base_optimizer (<["betas" := bet]> {["lr" := lr]})
  else
    raise (ValueError "Unsupported optimizer").
End program.

Arguments grad_norms : simpl never.
Arguments t_norm : simpl never.
Arguments zero_grad : simpl never.
Arguments perturb : simpl never.
Arguments restore : simpl never.
Arguments _grad_norm : simpl never.
Arguments first_step : simpl never.
Arguments second_step : simpl never.

(** ** A library to run the model on

    An implementation of [Torch] that allocates list objects the way the
    constructors of [torch.optim.Optimizer] do, whose [step()] only
    records the parameter data it is called on, and whose norm is the
    norm by the book.  The statements below hold for every implementation;
    this one serves to evaluate the model on concrete worlds. *)
Section recording_library.
Context {T : Type} `{Scalar T}.

(** [ext]: the data [step()] of the base optimizer saw, newest first. *)
Abbreviation Log := (list (gmap loc (Tensor T))) (only parsing).
Local Abbreviation M := (M T Log).

Definition set_lists (f : gmap loc (list (Group T)) → gmap loc (list (Group T)))
    (w : World T Log) : World T Log :=
  mkWorld (tensors w) (f (lists w)) (self_param_groups w) (self_state w)
    (self_defaults w) (self_base_optimizer w) (grad_mode w) (ext w).

Definition set_ext (f : Log → Log) (w : World T Log) : World T Log :=
  mkWorld (tensors w) (lists w) (self_param_groups w) (self_state w)
    (self_defaults w) (self_base_optimizer w) (grad_mode w) (f (ext w)).

(** A new list object holding [gs]. *)
Definition new_list (gs : list (Group T)) : M loc :=
  l ← gets (λ w, Pos.succ (map_fold (λ k _ acc, Pos.max k acc) 1%positive (lists w))) ;
  modify (set_lists (λ m, <[l := gs]> m)) ;;
  mret l.

Definition group_of_defaults (ps : list loc) (defaults : Kwargs T) : Group T :=
  mkGroup ps
    (match defaults !! "rho" with Some (HFloat r) => r | _ => s_zero end)
    (match defaults !! "adaptive" with Some (HBool b) => b | _ => false end)
    defaults.

(** The groups an optimizer constructor makes of its first argument. *)
Definition groups_of (params : ParamsArg) (defaults : Kwargs T) : M (list (Group T)) :=
  match params with
  | ParamList [] => raise (ValueError "optimizer got an empty parameter list")
  | ParamList ps => mret [group_of_defaults ps defaults]
  | GroupList l => gets (λ w, lists w !!! l)
  end.

Definition rec_Optimizer___init__ (params : ParamsArg) (defaults : Kwargs T) : M unit :=
  gs ← groups_of params defaults ;
  l ← new_list gs ;
  modify (set_self_param_groups l) ;;
  modify (set_self_state (λ _, ∅)) ;;
  modify (set_self_defaults defaults).

Definition rec_constructor (params : ParamsArg) (kwargs : Kwargs T) : M (Optimizer T) :=
  gs ← groups_of params kwargs ;
  l ← new_list gs ;
  mret (mkOptimizer l kwargs).

Definition rec_load_state_dict
    (sd : gmap loc (gmap string (Tensor T)) * list (Group T)) : M unit :=
  old ← get_param_groups ;
  if decide (length old = length sd.2) then
    l ← new_list sd.2 ;
    modify (set_self_param_groups l) ;;
    modify (set_self_state (λ _, sd.1))
  else
    raise (ValueError "loaded state dict has a different number of parameter groups").

Definition rec_step (o : Optimizer T) : M unit :=
  modify (λ w, set_ext (λ log, (data <$> tensors w) :: log) w).

#[global] Instance recording_torch : Torch T Log := {|
  Optimizer___init__ := rec_Optimizer___init__;
  StateDict := gmap loc (gmap string (Tensor T)) * list (Group T);
  Optimizer_load_state_dict := rec_load_state_dict;
  optimizer_step := rec_step;
  torch_norm := t_norm;
  set_to_none := true;
  optim_SGD := rec_constructor;
  optim_Adam := rec_constructor;
  optim_AdamW := rec_constructor;
  AdaBelief := rec_constructor
|}.

(** A closure that stores the gradients [gs] and returns. *)
Definition closure_of (gs : list (loc * option (Tensor T))) : M unit :=
  for_each gs (λ pg, set_grad pg.1 pg.2).

(** A world before any optimizer is built: the parameters [h]. *)
Definition blank (h : gmap loc (Param T)) : World T Log :=
  mkWorld h ∅ 1%positive ∅ ∅ (mkOptimizer 1%positive ∅) true [].
End recording_library.

(** ** Concrete worlds *)

(** The world of a [SAM] instance over the parameters [h] and the groups
    [gs], whose base optimizer shares the list of groups. *)
Definition world_of {T : Type} (h : gmap loc (Param T)) (gs : list (Group T)) :
    World T (list (gmap loc (Tensor T))) :=
  mkWorld h {[1%positive := gs]} 1%positive ∅ ∅ (mkOptimizer 1%positive ∅) true [].

(** Two parameters in one group: [1] with a gradient, [2] without. *)
Definition two_params : World float (list (gmap loc (Tensor float))) :=
  world_of
    (<[1%positive := mkParam [1; 2]%float (Some [3; 4]%float) 0]>
       {[2%positive := mkParam [10]%float None 0]})
    [mkGroup [1%positive; 2%positive] s_rho_default false ∅].

(** The same parameters behind an empty first group. *)
Definition empty_first_group : World float (list (gmap loc (Tensor float))) :=
  world_of (tensors two_params)
    [mkGroup [] s_rho_default false ∅;
     mkGroup [1%positive; 2%positive] s_rho_default false ∅].

(** [two_params] after [first_step(zero_grad=True)]. *)
Definition two_params_perturbed : World float (list (gmap loc (Tensor float))) :=
  (first_step true two_params).2.

(** A closure that computes a gradient for parameter [1] only, and one
    that computes a gradient for parameter [2], which had none. *)
Definition closure_1 : M float (list (gmap loc (Tensor float))) unit :=
  closure_of [(1%positive, Some [1; 1]%float)].
Definition closure_2 : M float (list (gmap loc (Tensor float))) unit :=
  closure_of [(2%positive, Some [1]%float)].

(** One parameter in one group that is not adaptive. *)
Definition one_param (w g : Tensor float) (r : float) :
    World float (list (gmap loc (Tensor float))) :=
  world_of {[1%positive := mkParam w (Some g) 0]} [mkGroup [1%positive] r false ∅].

(** A state dictionary with one adaptive group. *)
Definition one_group_dict :
    gmap loc (gmap string (Tensor float)) * list (Group float) :=
  (∅, [mkGroup [1%positive; 2%positive] 1%float true ∅]).

(** One parameter without gradient. *)
Definition no_grads : World float (list (gmap loc (Tensor float))) :=
  world_of {[1%positive := mkParam [1; 2]%float None 0]}
    [mkGroup [1%positive] s_rho_default false ∅].

(** The parameters of [two_params] in a group that lists parameter [1]
    twice.  [torch.optim.Optimizer] warns about such a group and builds
    the optimizer. *)
Definition listed_twice : World float (list (gmap loc (Tensor float))) :=
  world_of (tensors two_params)
    [mkGroup [1%positive; 1%positive] s_rho_default false ∅].

(** A large gradient and a small radius: [rho = 2^-600], [g = 2^500]. *)
Definition tiny_radius : World float (list (gmap loc (Tensor float))) :=
  one_param [0]%float [0x1p500]%float 0x1p-600%float.

(** A zero gradient and a large radius: [rho = 2^1000]. *)
Definition huge_radius : World float (list (gmap loc (Tensor float))) :=
  one_param [1; 2]%float [0; 0]%float 0x1p1000%float.

(** A zero gradient and the default radius. *)
Definition zero_gradient : World float (list (gmap loc (Tensor float))) :=
  one_param [1; 2]%float [0; 0]%float s_rho_default.

(** One parameter in an adaptive group. *)
Definition adaptive_param : World float (list (gmap loc (Tensor float))) :=
  world_of {[1%positive := mkParam [1; -1]%float (Some [3; 4]%float) 0]}
    [mkGroup [1%positive] s_rho_default true ∅].

(** A zero gradient for an infinite parameter of an adaptive group. *)
Definition infinite_param : World float (list (gmap loc (Tensor float))) :=
  world_of {[1%positive := mkParam [infinity]%float (Some [0]%float) 0]}
    [mkGroup [1%positive] s_rho_default true ∅].

(** A gradient whose squares are finite and whose doubled squares are
    not: [g = (2^511, 2^511)]. *)
Definition large_gradient : World float (list (gmap loc (Tensor float))) :=
  one_param [1; 2]%float [0x1p511; 0x1p511]%float s_rho_default.

(** ** Notions the statements use *)

Section notions.
Context {T E : Type}.
Implicit Types w : World T E.

(** The groups of the [SAM] instance. *)
Definition groups_of_self w : list (Group T) := lists w !!! self_param_groups w.

(** The parameters of all groups, in the order the loops visit them. *)
Definition all_params w : list loc := group ← groups_of_self w ; params group.

(** The parameter [p] has a gradient. *)
Definition has_grad w (p : loc) : Prop := grad (tensors w !!! p) ≠ None.

(** The snapshot of [p]: [self.state[p]["old_p"]], if there is one. *)
Definition old_p w (p : loc) : option (Tensor T) :=
  default ∅ (self_state w !! p) !! "old_p".

(** The parameter [p] and its entry in [self.state] are the same in
    [w] and [w']. *)
Definition untouched (p : loc) w w' : Prop :=
  tensors w' !! p = tensors w !! p ∧ self_state w' !! p = self_state w !! p.

(** What a closure may do between the two steps, from [w] to [w']: it
    computes gradients; the groups, the snapshots and the parameter data
    stay. *)
Definition writes_gradients_only w w' : Prop :=
  groups_of_self w' = groups_of_self w ∧
  self_state w' = self_state w ∧
  ∀ p, data (tensors w' !!! p) = data (tensors w !!! p).

(** Every gradient of [w] multiplied by [c]: [mul_c] is the
    multiplication of a tensor by [c]. *)
Definition scale_grads (mul_c : Tensor T → Tensor T) w : World T E :=
  set_tensors (fmap (λ P, mkParam (data P) (mul_c <$> grad P) (device P))) w.

(** Every gradient of the parameters of the groups is all [zero]. *)
Definition all_grads_zero (zero : T) w : Prop :=
  ∀ p g, p ∈ all_params w → grad (tensors w !!! p) = Some g →
         Forall (λ x, x = zero) g.

(** The world [w] with the entry of [p] in [self.state] replaced: [f]
    maps the old entry, if any, to the new one, if any. *)
Definition tamper (p : loc)
    (f : option (gmap string (Tensor T)) → option (gmap string (Tensor T))) w :=
  set_self_state (partial_alter f p) w.

(** What the method that was entered with the autograd switch at [m]
    hands back when its body ended in [x]. *)
Definition leave (m : bool) {A} (x : Outcome A * World T E) : Outcome A * World T E :=
  (x.1, set_grad_mode m x.2).
End notions.

(** The seven names [select_optimizer] knows. *)
Definition optimizer_names : list string :=
  ["SGD"; "momentum"; "Adam"; "AdamW"; "AdaBelief"; "SAM"; "SAM_Adam"].

(** *** Notions of the further properties *)

Section further_notions.
Context {T E : Type} `{Scalar T}.
Implicit Types w : World T E.

(** The attributes of the optimizer, the lists of groups, the autograd
    switch and the objects outside are the same in [w] and [w']. *)
Definition same_attributes w w' : Prop :=
  lists w' = lists w ∧
  self_param_groups w' = self_param_groups w ∧
  self_defaults w' = self_defaults w ∧
  self_base_optimizer w' = self_base_optimizer w ∧
  grad_mode w' = grad_mode w ∧
  ext w' = ext w.

End further_notions.

(** *** Notions of the statements on binary64 numbers *)

(** The number [f] times [2^k], as long as that is no overflow: [k]
    added to the exponent. *)
Definition SF_lift (k : Z) (f : spec_float) : spec_float :=
  match f with
  | S754_finite s m e => S754_finite s m (e + k)
  | _ => f
  end.

(** [x] is a zero, or a normal number [m * 2^e] with a mantissa [m] of 53
    bits and [lo <= e <= hi]. *)
Definition exponent_within (lo hi : Z) (x : float) : bool :=
  match Prim2SF x with
  | S754_zero _ => true
  | S754_finite _ _ e => (lo <=? e)%Z && (e <=? hi)%Z
  | _ => false
  end.

(** Zero or positive. *)
Definition SFnonneg (f : spec_float) : Prop :=
  match f with
  | S754_zero s | S754_finite s _ _ => s = false
  | _ => False
  end.

(** The squares and the partial sums that [sum_squares] computes from
    the sum [acc] on are zeros or normal numbers, with room for a factor
    four below the overflow, and the elements are zeros or normal
    numbers above [2^-485], with room for a factor two. *)
Fixpoint squares_in_range (acc : float) (x : Tensor float) : bool :=
  match x with
  | [] => true
  | xi :: x' =>
      exponent_within (-537) 970 xi &&
      exponent_within (-1073) 969 (xi * xi)%float &&
      exponent_within (-1073) 969 (acc + xi * xi)%float &&
      squares_in_range (acc + xi * xi)%float x'
  end.

(** The same for the whole of [t_norm x], the root included. *)
Definition norm_in_range (x : Tensor float) : bool :=
  squares_in_range 0%float x && exponent_within (-1073) 970 (t_norm x).

(** ** Properties that hold for every scalar type and every library *)

(** *** Running a computation *)

Section run.
Context {T E : Type}.
Implicit Types w : World T E.

Lemma bind_run {A B} (m : M T E A) (k : A → M T E B) w :
  (m ≫= k) w =
  match m w with
  | (Returns a, w') => k a w'
  | (Raises e, w') => (Raises e, w')
  end.
Proof. reflexivity. Qed.

Lemma fmap_run {A B} (f : A → B) (m : M T E A) w :
  (f <$> m) w =
  match m w with
  | (Returns a, w') => (Returns (f a), w')
  | (Raises e, w') => (Raises e, w')
  end.
Proof. reflexivity. Qed.

Lemma ret_run {A} (a : A) w : (mret a : M T E A) w = (Returns a, w).
Proof. reflexivity. Qed.

Lemma raise_run {A} e w : (raise e : M T E A) w = (Raises e, w).
Proof. reflexivity. Qed.

Lemma gets_run {A} (f : World T E → A) w : gets f w = (Returns (f w), w).
Proof. reflexivity. Qed.

Lemma modify_run (f : World T E → World T E) w : modify f w = (Returns (), f w).
Proof. reflexivity. Qed.

Lemma for_each_nil {A} (body : A → M T E unit) w :
  for_each [] body w = (Returns (), w).
Proof. reflexivity. Qed.

Lemma for_each_cons {A} (x : A) l (body : A → M T E unit) w :
  for_each (x :: l) body w =
  match body x w with
  | (Returns _, w') => for_each l body w'
  | (Raises e, w') => (Raises e, w')
  end.
Proof. reflexivity. Qed.

Lemma for_each_app {A} (l1 l2 : list A) (body : A → M T E unit) w :
  for_each (l1 ++ l2) body w =
  match for_each l1 body w with
  | (Returns _, w') => for_each l2 body w'
  | (Raises e, w') => (Raises e, w')
  end.
Proof.
  revert w. induction l1 as [|x l1 IH]; intros w; [done|].
  simpl app. rewrite !for_each_cons.
  destruct (body x w) as [[[]|e] w']; [apply IH|done].
Qed.

(** Two nested loops visit the pairs of the flattened list. *)
Lemma for_each_nested {A B} (l : list A) (inner : A → list B)
    (body : A → B → M T E unit) w :
  for_each l (λ x, for_each (inner x) (body x)) w =
  for_each (x ← l ; pair x <$> inner x) (λ xy, body xy.1 xy.2) w.
Proof.
  revert w. induction l as [|x l IH]; intros w; [done|].
  rewrite for_each_cons, bind_cons, for_each_app.
  assert (Hinner : ∀ w, for_each (inner x) (body x) w =
            for_each (pair x <$> inner x) (λ xy, body xy.1 xy.2) w).
  { clear. induction (inner x) as [|y ys IHy]; intros w; [done|].
    rewrite fmap_cons, !for_each_cons. simpl.
    destruct (body x y w) as [[[]|e] w']; [apply IHy|done]. }
  rewrite Hinner.
  destruct (for_each (pair x <$> inner x) _ w) as [[[]|e] w']; [apply IH|done].
Qed.
End run.

(** Steps through a computation applied to a world. *)
Ltac run_monad :=
  repeat progress
    (rewrite ?bind_run, ?fmap_run, ?ret_run, ?raise_run, ?gets_run, ?modify_run;
     unfold index, assert, when; simpl).

Section properties.
Context {T E : Type} `{Scalar T} `{Torch T E}.
Implicit Types w : World T E.

Local Abbreviation M := (M T E).

(** *** The autograd switch *)

Lemma set_grad_mode_same w : set_grad_mode (grad_mode w) w = w.
Proof. by destruct w. Qed.

Lemma set_grad_mode_twice b b' w :
  set_grad_mode b (set_grad_mode b' w) = set_grad_mode b w.
Proof. by destruct w. Qed.

Lemma with_grad_mode_run {A} b (m : M A) w :
  with_grad_mode b m w = leave (grad_mode w) (m (set_grad_mode b w)).
Proof. unfold with_grad_mode, leave. by destruct (m _). Qed.

(** *** [_grad_norm] *)

(** The three ways [_grad_norm] ends. *)
Lemma _grad_norm_run w :
  _grad_norm w =
  match groups_of_self w with
  | [] => (Raises IndexError, w)
  | group0 :: _ =>
      match params group0 with
      | [] => (Raises IndexError, w)
      | p0 :: _ =>
          match grad_norms (tensors w) (device (tensors w !!! p0)) (groups_of_self w) with
          | [] => (Raises (RuntimeError "stack expects a non-empty TensorList"), w)
          | n :: ns => (Returns (torch_norm (n :: ns)), w)
          end
      end
  end.
Proof.
  unfold _grad_norm, get_param_groups, get_param, groups_of_self. run_monad.
  destruct (lists w !!! self_param_groups w) as [|g gs]; [done|]. run_monad.
  destruct (params g) as [|p ps]; [done|]. run_monad.
  by destruct (grad_norms _ _ _).
Qed.

(** [_grad_norm] writes nothing. *)
Lemma _grad_norm_pure w : (_grad_norm w).2 = w.
Proof.
  rewrite _grad_norm_run. destruct (groups_of_self w) as [|g gs]; [done|].
  destruct (params g); [done|]. by destruct (grad_norms _ _ _).
Qed.

Lemma _grad_norm_no_first_param w g gs :
  groups_of_self w = g :: gs → params g = [] →
  _grad_norm w = (Raises IndexError, w).
Proof. intros Hgs Hg. by rewrite _grad_norm_run, Hgs, Hg. Qed.

Lemma first_step_run zg w :
  first_step zg w =
  leave (grad_mode w)
    match _grad_norm (set_grad_mode false w) with
    | (Returns grad_norm, w1) =>
        (for_each (groups_of_self w1) (λ group,
           for_each (params group)
             (perturb group (s_div (rho group) (s_add grad_norm s_eps)))) ;;
         when zg zero_grad) w1
    | (Raises e, w1) => (Raises e, w1)
    end.
Proof.
  unfold first_step, no_grad. rewrite with_grad_mode_run. reflexivity.
Qed.

(** *** C10 *)

(** C10.  [_grad_norm] reads [self.param_groups[0]["params"][0]] before
    anything else.  When the first group has no parameter, [_grad_norm],
    [first_step] and [step] raise [IndexError] and leave the world as it
    was (the closure is not called), whatever the other groups hold.
    When the first group has a parameter, [_grad_norm] does not raise
    [IndexError]. *)
Theorem grad_norm_needs_first_param :
  ∀ w g gs,
    groups_of_self w = g :: gs →
    (params g = [] →
       _grad_norm w = (Raises IndexError, w) ∧
       (∀ zg, first_step zg w = (Raises IndexError, w)) ∧
       (∀ closure, step (Some closure) w = (Raises IndexError, w))) ∧
    (params g ≠ [] → (_grad_norm w).1 ≠ Raises IndexError).
Proof.
  intros w g gs Hgs. split.
  - intros Hg.
    assert (Hfirst : ∀ zg w', groups_of_self w' = g :: gs →
              first_step zg w' = (Raises IndexError, w')).
    { intros zg w' Hw'. rewrite first_step_run.
      rewrite (_grad_norm_no_first_param _ g gs); [|by destruct w'|done].
      unfold leave; simpl. by rewrite set_grad_mode_twice, set_grad_mode_same. }
    split_and!.
    + by eapply _grad_norm_no_first_param.
    + intros zg. by apply Hfirst.
    + intros closure. unfold step, no_grad. rewrite with_grad_mode_run.
      rewrite bind_run, Hfirst; [|by destruct w].
      unfold leave; simpl. by rewrite set_grad_mode_twice, set_grad_mode_same.
  - intros Hg. rewrite _grad_norm_run, Hgs.
    destruct (params g); [done|]. by destruct (grad_norms _ _ _).
Qed.

(** *** C4 *)

(** C4.  Without a closure [step] raises [AssertionError] and changes
    nothing.  With a closure it runs [first_step(zero_grad=True)], then
    the closure, once, on the world [first_step] left and with autograd
    switched on, then [second_step()] on the world the closure left;
    an exception of one of the three ends the call there. *)
Theorem step_protocol :
  (∀ w, step None w =
          (Raises (AssertionError
             "Sharpness Aware Minimization requires closure, but it was not provided"),
           w)) ∧
  (∀ (closure : M unit) w,
     step (Some closure) w =
     leave (grad_mode w)
       match first_step true (set_grad_mode false w) with
       | (Raises e, w1) => (Raises e, w1)
       | (Returns _, w1) =>
           match closure (set_grad_mode true w1) with
           | (Raises e, w2) => (Raises e, set_grad_mode false w2)
           | (Returns _, w2) => second_step false (set_grad_mode false w2)
           end
       end).
Proof.
  split.
  - intros w. unfold step, no_grad. rewrite with_grad_mode_run.
    unfold leave, raise; simpl.
    by rewrite set_grad_mode_twice, set_grad_mode_same.
  - intros closure w. unfold step, no_grad at 1. rewrite with_grad_mode_run.
    f_equal. rewrite bind_run.
    destruct (first_step true (set_grad_mode false w)) as [[[]|e] w1] eqn:Hfirst;
      [|done].
    assert (Hmode : grad_mode w1 = false).
    { rewrite first_step_run in Hfirst. unfold leave in Hfirst.
      by injection Hfirst as _ <-. }
    rewrite bind_run. unfold enable_grad. rewrite with_grad_mode_run, Hmode.
    unfold leave. by destruct (closure _) as [[[]|e] w2].
Qed.

(** *** [__init__] *)

Lemma __init___assertion_fails params base_optimizer rho adaptive kwargs w :
  s_geb rho s_zero = false →
  __init__ params base_optimizer rho adaptive kwargs w =
  (Raises (AssertionError "Invalid rho, should be non-negative"), w).
Proof. intros Hrho. unfold __init__, assert. by rewrite bind_run, Hrho. Qed.

Lemma __init___assertion_passes params base_optimizer rho adaptive kwargs w w1 b w2 :
  s_geb rho s_zero = true →
  Optimizer___init__ params
    (<["rho" := HFloat rho]> (<["adaptive" := HBool adaptive]> kwargs)) w
    = (Returns (), w1) →
  base_optimizer (GroupList (self_param_groups w1)) kwargs w1 = (Returns b, w2) →
  __init__ params base_optimizer rho adaptive kwargs w =
  (Returns (),
   set_self_defaults (opt_defaults b ∪ self_defaults w2)
     (set_self_param_groups (opt_param_groups b)
        (set_self_base_optimizer b w2))).
Proof.
  intros Hrho Hsuper Hbase. unfold __init__, assert.
  rewrite bind_run, Hrho. run_monad. rewrite Hsuper. run_monad.
  rewrite Hbase. by run_monad.
Qed.

(** *** C7 *)

(** C7.  When [load_state_dict] returns, the [param_groups] attribute of
    the base optimizer names the list object that [self.param_groups]
    names, so both read the same groups; and [load_state_dict] returns
    exactly when [Optimizer.load_state_dict] does. *)
Theorem load_state_dict_shares_groups :
  ∀ (state_dict : StateDict) w,
    (load_state_dict state_dict w).1 = (Optimizer_load_state_dict state_dict w).1 ∧
    ∀ w', load_state_dict state_dict w = (Returns (), w') →
      opt_param_groups (self_base_optimizer w') = self_param_groups w' ∧
      lists w' !!! opt_param_groups (self_base_optimizer w') = groups_of_self w'.
Proof.
  intros state_dict w. unfold load_state_dict. run_monad.
  destruct (Optimizer_load_state_dict state_dict w) as [[[]|e] w1]; simpl.
  - split; [done|]. by intros w' [= <-].
  - split; [done|]. by intros w' [=].
Qed.

(** *** C8 *)

(** C8.  Each of the seven names is routed to its constructor, called on
    the parameters of the model with the hyperparameters of that branch:
    [lr] alone for ["SGD"], [lr] and [momentum] for ["momentum"], [lr]
    and [betas] for the Adam family and AdaBelief; ["SAM"] and
    ["SAM_Adam"] build [SAM] around [optim.SGD] and [optim.Adam], with
    [rho = 0.05] and [adaptive = False].  Every other name raises
    [ValueError("Unsupported optimizer")] and changes nothing. *)
Theorem select_optimizer_routes :
  ∀ (model : list loc) (learning_rate momentum : T) (betas : T * T),
    let lr := HFloat learning_rate in
    let mom := HFloat momentum in
    let bet := HPair betas.1 betas.2 in
    let select name := select_optimizer name model learning_rate momentum betas in
    select "SGD" = Library <$> optim_SGD (ParamList model) {["lr" := lr]} ∧
    select "momentum" =
      Library <$> optim_SGD (ParamList model) (<["momentum" := mom]> {["lr" := lr]}) ∧
    select "Adam" =
      Library <$> optim_Adam (ParamList model) (<["betas" := bet]> {["lr" := lr]}) ∧
    select "AdamW" =
      Library <$> optim_AdamW (ParamList model) (<["betas" := bet]> {["lr" := lr]}) ∧
    select "AdaBelief" =
      Library <$> AdaBelief (ParamList model) (<["betas" := bet]> {["lr" := lr]}) ∧
    select "SAM" =
      (__init__ (ParamList model) optim_SGD s_rho_default false
         (<["momentum" := mom]> {["lr" := lr]}) ;; mret SAM_instance) ∧
    select "SAM_Adam" =
      (__init__ (ParamList model) optim_Adam s_rho_default false
         (<["betas" := bet]> {["lr" := lr]}) ;; mret SAM_instance) ∧
    ∀ name w, name ∉ optimizer_names →
      select name w = (Raises (ValueError "Unsupported optimizer"), w).
Proof.
  intros model learning_rate momentum betas lr mom bet select.
  split_and!; try reflexivity.
  intros name w Hname. unfold select, select_optimizer, optimizer_names in *.
  repeat match goal with
  | |- context [String.eqb name ?s] =>
      destruct (String.eqb_spec name s) as [->|_]; [exfalso; apply Hname; set_solver|]
  end.
  reflexivity.
Qed.

(** *** The loop bodies *)

Lemma perturb_run group scale p w :
  perturb group scale p w =
  match grad (tensors w !!! p) with
  | None => (Returns (), w)
  | Some g =>
      let P := tensors w !!! p in
      (Returns (),
       set_tensors (λ h, <[p := mkParam (t_add (data P) (e_w (adaptive group) P g scale))
                                        (grad P) (device P)]> h)
         (set_self_state
            (λ st, <[p := <["old_p" := data P]> (default ∅ (st !! p))]> st) w))
  end.
Proof.
  unfold perturb, get_param, state_setitem, set_data. run_monad.
  destruct (grad (tensors w !!! p)) eqn:Hg; [|done]. run_monad.
  unfold set_tensors, set_self_state; simpl. by rewrite Hg.
Qed.

Lemma restore_run p w :
  restore p w =
  match grad (tensors w !!! p) with
  | None => (Returns (), w)
  | Some _ =>
      let d := default ∅ (self_state w !! p) in
      let w1 := set_self_state (λ st, <[p := d]> st) w in
      match d !! "old_p" with
      | Some v =>
          (Returns (),
           set_tensors (λ h, <[p := mkParam v (grad (h !!! p)) (device (h !!! p))]> h) w1)
      | None => (Raises (KeyError "old_p"), w1)
      end
  end.
Proof.
  unfold restore, get_param, state_getitem, set_data. run_monad.
  destruct (grad (tensors w !!! p)); [|done]. run_monad.
  by destruct (default ∅ (self_state w !! p) !! "old_p").
Qed.

Lemma restore_all_run w :
  restore_all w =
  for_each (group ← groups_of_self w ; pair group <$> params group)
    (λ gp, restore gp.2) w.
Proof.
  unfold restore_all, get_param_groups. run_monad.
  apply (for_each_nested _ params (λ _, restore)).
Qed.

Lemma zero_grad_run w :
  zero_grad w =
  for_each (group ← groups_of_self w ; pair group <$> params group)
    (λ gp, P ← get_param gp.2 ;
           match grad P with
           | None => mret ()
           | Some g =>
               if set_to_none then set_grad gp.2 None
               else set_grad gp.2 (Some (t_zeros_like g))
           end) w.
Proof.
  unfold zero_grad, get_param_groups. run_monad.
  apply (for_each_nested _ params (λ _ p, P ← get_param p ; _)).
Qed.

Lemma second_step_run zg w :
  second_step zg w =
  leave (grad_mode w)
    match restore_all (set_grad_mode false w) with
    | (Returns _, w1) => (base_optimizer_step ;; when zg zero_grad) w1
    | (Raises e, w1) => (Raises e, w1)
    end.
Proof.
  unfold second_step, no_grad. rewrite with_grad_mode_run. reflexivity.
Qed.

Lemma all_params_visits w :
  all_params w = (group ← groups_of_self w ; pair group <$> params group).*2.
Proof.
  unfold all_params. induction (groups_of_self w) as [|g gs IH]; [done|].
  rewrite !bind_cons, fmap_app, IH. f_equal.
  rewrite <-list_fmap_compose. by rewrite list_fmap_id.
Qed.

(** *** Loop invariants *)

Lemma for_each_invariant {A} (I : World T E → Prop) (l : list A) (body : A → M unit) :
  (∀ x w, x ∈ l → I w → I (body x w).2) →
  ∀ w, I w → I (for_each l body w).2.
Proof.
  induction l as [|x l IH]; intros Hbody w Hw; [done|].
  rewrite for_each_cons.
  assert (Hx : I (body x w).2) by (apply Hbody; [left|done]).
  destruct (body x w) as [[[]|e] w']; [|done].
  apply IH; [|done]. intros y w'' Hy. apply Hbody. by right.
Qed.

Lemma lookup_total_eq (h h' : gmap loc (Param T)) p :
  h' !! p = h !! p → h' !!! p = h !!! p.
Proof. intros Heq. by rewrite !lookup_total_alt, Heq. Qed.

(** *** What is not written *)

Lemma perturb_untouched group scale p q w :
  grad (tensors w !!! p) = None →
  untouched p w (perturb group scale q w).2.
Proof.
  intros Hp. rewrite perturb_run.
  destruct (grad (tensors w !!! q)) eqn:Hq; [|done].
  assert (q ≠ p) by congruence.
  split; simpl; by rewrite lookup_insert_ne.
Qed.

Lemma restore_untouched p q w :
  grad (tensors w !!! p) = None →
  untouched p w (restore q w).2.
Proof.
  intros Hp. rewrite restore_run.
  destruct (grad (tensors w !!! q)) eqn:Hq; [|done].
  assert (q ≠ p) by congruence. simpl.
  destruct (default ∅ (self_state w !! q) !! "old_p");
    split; simpl; by rewrite ?lookup_insert_ne.
Qed.

Lemma zero_grad_body_untouched p q w :
  grad (tensors w !!! p) = None →
  untouched p w
    ((P ← get_param q ;
      match grad P with
      | None => mret ()
      | Some g =>
          if set_to_none then set_grad q None
          else set_grad q (Some (t_zeros_like g))
      end) w).2.
Proof.
  intros Hp. unfold get_param, set_grad. run_monad.
  destruct (grad (tensors w !!! q)) eqn:Hq; [|done].
  assert (q ≠ p) by congruence.
  destruct set_to_none; split; simpl; by rewrite ?lookup_insert_ne.
Qed.

Lemma untouched_trans p w1 w2 w3 :
  untouched p w1 w2 → untouched p w2 w3 → untouched p w1 w3.
Proof. intros [??] [??]. split; congruence. Qed.

Lemma untouched_gradless p w w' :
  untouched p w w' → grad (tensors w !!! p) = None →
  grad (tensors w' !!! p) = None.
Proof. intros [Ht _] Hp. by rewrite (lookup_total_eq _ _ _ Ht). Qed.

(** A loop whose body leaves a gradient-less [p] alone leaves it alone. *)
Lemma for_each_untouched {A} p (l : list A) (body : A → M unit) w :
  (∀ x w', grad (tensors w' !!! p) = None → untouched p w' (body x w').2) →
  grad (tensors w !!! p) = None →
  untouched p w (for_each l body w).2.
Proof.
  intros Hbody Hp.
  apply (for_each_invariant
           (λ w', untouched p w w' ∧ grad (tensors w' !!! p) = None)); [|done].
  intros x w' _ [Hw' Hp']. specialize (Hbody x w' Hp'). split.
  - by eapply untouched_trans.
  - by eapply untouched_gradless.
Qed.

Lemma restore_all_untouched p w :
  grad (tensors w !!! p) = None → untouched p w (restore_all w).2.
Proof.
  intros Hp. rewrite restore_all_run. apply for_each_untouched; [|done].
  intros gp w'. apply restore_untouched.
Qed.

Lemma zero_grad_untouched p w :
  grad (tensors w !!! p) = None → untouched p w (zero_grad w).2.
Proof.
  intros Hp. rewrite zero_grad_run. apply for_each_untouched; [|done].
  intros gp w'. apply zero_grad_body_untouched.
Qed.

Lemma first_step_untouched zg p w :
  grad (tensors w !!! p) = None → untouched p w (first_step zg w).2.
Proof.
  intros Hp. rewrite first_step_run. unfold leave; simpl.
  pose proof (_grad_norm_pure (set_grad_mode false w)) as Hpure.
  destruct (_grad_norm (set_grad_mode false w)) as [[n|e] w1];
    simpl in Hpure; subst w1; [|done].
  rewrite bind_run.
  pose proof (for_each_nested (groups_of_self (set_grad_mode false w)) params
    (λ group, perturb group (s_div (rho group) (s_add n s_eps)))
    (set_grad_mode false w)) as Hflat. simpl in Hflat. rewrite Hflat. clear Hflat.
  match goal with |- context [for_each ?l ?b ?w0] =>
    pose proof (for_each_untouched p l b w0) as Hloop;
    destruct (for_each l b w0) as [[[]|e] w1]
  end; simpl in *.
  - assert (Hw1 : untouched p w w1).
    { apply Hloop; [|done]. intros gp w'. apply perturb_untouched. }
    destruct zg; simpl; [|done].
    pose proof (zero_grad_untouched p w1) as Hz.
    destruct (zero_grad w1) as [r w2]; simpl in *.
    eapply untouched_trans; [done|]. apply Hz. by eapply untouched_gradless.
  - apply Hloop; [|done]. intros gp w'. apply perturb_untouched.
Qed.

(** *** What is not read *)

Lemma restore_tamper p f q w :
  grad (tensors w !!! p) = None →
  restore q (tamper p f w) = ((restore q w).1, tamper p f (restore q w).2).
Proof.
  intros Hp. rewrite !restore_run. simpl.
  destruct (grad (tensors w !!! q)) eqn:Hq; [|done].
  assert (p ≠ q) by congruence.
  rewrite lookup_partial_alter_ne by done.
  assert (Hcomm : ∀ d (st : gmap loc (gmap string (Tensor T))),
                          <[q:=d]> (partial_alter f p st) =
                          partial_alter f p (<[q:=d]> st)).
  { intros d st. by rewrite partial_alter_insert_ne. }
  destruct (default ∅ (self_state w !! q) !! "old_p"); simpl;
    unfold tamper, set_self_state, set_tensors; simpl; by rewrite Hcomm.
Qed.

Lemma for_each_restore_tamper {A} p f (l : list A) (sel : A → loc) w :
  grad (tensors w !!! p) = None →
  for_each l (λ x, restore (sel x)) (tamper p f w) =
  ((for_each l (λ x, restore (sel x)) w).1,
   tamper p f (for_each l (λ x, restore (sel x)) w).2).
Proof.
  revert w. induction l as [|x l IH]; intros w Hp; [done|].
  rewrite !for_each_cons, restore_tamper by done.
  pose proof (restore_untouched p (sel x) w Hp) as Hx.
  destruct (restore (sel x) w) as [[[]|e] w1]; simpl in *; [|done].
  apply IH. by eapply untouched_gradless.
Qed.

(** *** C5 *)

(** C5.  Let [p] have no gradient.  [first_step] ends, however it ends,
    in a world where the parameter object [p] and the entry of [p] in
    [self.state] are what they were: no write, no snapshot.  All that
    [second_step] does before it steps the base optimizer is [restore_all];
    the world [restore_all] leaves has the same two properties, and what
    [restore_all] does is independent of the entry of [p]: replacing or
    removing the entry beforehand gives the same outcome and the same
    world, up to that entry. *)
Theorem gradless_parameters_are_skipped :
  ∀ w p,
    grad (tensors w !!! p) = None →
    (∀ zg, untouched p w (first_step zg w).2) ∧
    (∀ zg, second_step zg w =
           leave (grad_mode w)
             match restore_all (set_grad_mode false w) with
             | (Returns _, w1) => (base_optimizer_step ;; when zg zero_grad) w1
             | (Raises e, w1) => (Raises e, w1)
             end) ∧
    untouched p w (restore_all (set_grad_mode false w)).2 ∧
    (∀ f, restore_all (tamper p f w) =
          ((restore_all w).1, tamper p f (restore_all w).2)).
Proof.
  intros w p Hp. split_and!.
  - intros zg. by apply first_step_untouched.
  - intros zg. apply second_step_run.
  - by apply (restore_all_untouched p (set_grad_mode false w)).
  - intros f. rewrite !restore_all_run.
    by apply (for_each_restore_tamper p f _ snd).
Qed.

(** *** The loops of [second_step] *)

(** A gradient-bearing parameter without a snapshot stops the loop. *)
Lemma for_each_restore_KeyError {A} (sel : A → loc) (l : list A) w p :
  p ∈ sel <$> l → has_grad w p → old_p w p = None →
  (for_each l (λ x, restore (sel x)) w).1 = Raises (KeyError "old_p").
Proof.
  revert w. induction l as [|x l IH]; intros w Hin Hgrad Hold.
  { by apply elem_of_nil in Hin. }
  rewrite ?fmap_cons in Hin. rewrite for_each_cons, restore_run.
  destruct (grad (tensors w !!! sel x)) eqn:Hx.
  - simpl. destruct (default ∅ (self_state w !! sel x) !! "old_p") as [v|] eqn:Hv;
      [|done].
    assert (p ≠ sel x) by (intros ->; unfold old_p in Hold; congruence).
    apply IH.
    + apply elem_of_cons in Hin as [?|?]; done.
    + unfold has_grad in *; simpl. by rewrite lookup_total_insert_ne.
    + unfold old_p in *; simpl. by rewrite lookup_insert_ne.
  - assert (p ≠ sel x) by (intros ->; unfold has_grad in Hgrad; congruence).
    apply IH; [|done..]. apply elem_of_cons in Hin as [?|?]; done.
Qed.

(** When every gradient-bearing parameter has a snapshot, the loop
    returns, and it has written the snapshots into the data. *)
Lemma for_each_restore {A} (sel : A → loc) (l : list A) w :
  (∀ p, p ∈ sel <$> l → has_grad w p → is_Some (old_p w p)) →
  ∃ w1, for_each l (λ x, restore (sel x)) w = (Returns (), w1) ∧
    lists w1 = lists w ∧
    self_param_groups w1 = self_param_groups w ∧
    (∀ p, grad (tensors w1 !!! p) = grad (tensors w !!! p)) ∧
    (∀ p, old_p w1 p = old_p w p) ∧
    (∀ p, p ∈ sel <$> l → has_grad w p →
          old_p w p = Some (data (tensors w1 !!! p))) ∧
    (∀ p, p ∉ sel <$> l → tensors w1 !! p = tensors w !! p).
Proof.
  revert w. induction l as [|x l IH]; intros w Hsnap.
  { exists w. split_and!; try done. intros p Hin. by apply elem_of_nil in Hin. }
  rewrite ?fmap_cons in Hsnap. rewrite for_each_cons, restore_run.
  destruct (grad (tensors w !!! sel x)) as [g|] eqn:Hx.
  - destruct (Hsnap (sel x)) as [v Hv]; [left|unfold has_grad; congruence|].
    unfold old_p in Hv. simpl. rewrite Hv.
    set (w' := set_tensors _ _).
    assert (Hgrad' : ∀ p, grad (tensors w' !!! p) = grad (tensors w !!! p)).
    { intros p. subst w'; simpl. destruct (decide (p = sel x)) as [->|].
      - by rewrite lookup_total_insert_eq.
      - by rewrite lookup_total_insert_ne. }
    assert (Hold' : ∀ p, old_p w' p = old_p w p).
    { intros p. subst w'; unfold old_p; simpl.
      destruct (decide (p = sel x)) as [->|].
      - by rewrite lookup_insert_eq.
      - by rewrite lookup_insert_ne. }
    destruct (IH w') as (w1 & Hrun & Hl & Hs & Hg & Ho & Hdata & Hrest).
    { intros p Hin Hp. rewrite Hold'. apply Hsnap; [by right|].
      unfold has_grad in *. by rewrite <-Hgrad'. }
    exists w1. split_and!; try done.
    + intros p. by rewrite Hg.
    + intros p. by rewrite Ho.
    + intros p Hin Hp. rewrite ?fmap_cons in Hin.
      destruct (decide (p ∈ sel <$> l)) as [Hl'|Hl'].
      * rewrite <-Hold'. apply Hdata; [done|].
        unfold has_grad in *. by rewrite Hgrad'.
      * apply elem_of_cons in Hin as [->|?]; [|done].
        rewrite (lookup_total_eq _ _ _ (Hrest _ Hl')).
        subst w'; simpl. rewrite lookup_total_insert_eq. simpl.
        by unfold old_p.
    + intros p Hin. rewrite ?fmap_cons in Hin.
      apply not_elem_of_cons in Hin as [? ?]. rewrite Hrest by done.
      subst w'; simpl. by rewrite lookup_insert_ne.
  - destruct (IH w) as (w1 & Hrun & Hl & Hs & Hg & Ho & Hdata & Hrest).
    { intros p Hin Hp. apply Hsnap; [by right|done]. }
    exists w1. split_and!; try done.
    + intros p Hin Hp. rewrite ?fmap_cons in Hin.
      apply elem_of_cons in Hin as [->|?]; [|by apply Hdata].
      unfold has_grad in Hp. congruence.
    + intros p Hin. rewrite ?fmap_cons in Hin.
      apply not_elem_of_cons in Hin as [? ?]. by apply Hrest.
Qed.

Lemma groups_of_self_eq w w' :
  lists w' = lists w → self_param_groups w' = self_param_groups w →
  groups_of_self w' = groups_of_self w.
Proof. unfold groups_of_self. by intros -> ->. Qed.

Lemma all_params_eq w w' :
  groups_of_self w' = groups_of_self w → all_params w' = all_params w.
Proof. unfold all_params. by intros ->. Qed.

(** *** C9 *)

(** C9.  If some parameter of the groups has a gradient and no snapshot
    under ["old_p"], [second_step] raises [KeyError] out of its loops:
    the base optimizer is not stepped, and the world is the one the
    loops left.  If every gradient-bearing parameter of the groups has a
    snapshot, the loops return. *)
Theorem second_step_needs_snapshot :
  ∀ w zg,
    (∀ p, p ∈ all_params w → has_grad w p → old_p w p = None →
       second_step zg w =
       (Raises (KeyError "old_p"),
        set_grad_mode (grad_mode w) (restore_all (set_grad_mode false w)).2)) ∧
    ((∀ p, p ∈ all_params w → has_grad w p → is_Some (old_p w p)) →
       (restore_all (set_grad_mode false w)).1 = Returns ()).
Proof.
  intros w zg. split.
  - intros p Hin Hgrad Hold. rewrite second_step_run.
    pose proof (for_each_restore_KeyError snd
      (group ← groups_of_self w ; pair group <$> params group)
      (set_grad_mode false w) p) as Hloop.
    rewrite <-all_params_visits in Hloop. specialize (Hloop Hin Hgrad Hold).
    rewrite restore_all_run.
    change (groups_of_self (set_grad_mode false w)) with (groups_of_self w).
    by destruct (for_each _ _ _) as [[[]|e] w1]; simpl in *; simplify_eq.
  - intros Hsnap. rewrite restore_all_run.
    change (groups_of_self (set_grad_mode false w)) with (groups_of_self w).
    destruct (for_each_restore snd
      (group ← groups_of_self w ; pair group <$> params group)
      (set_grad_mode false w)) as (w1 & -> & _); [|done].
    rewrite <-all_params_visits. apply Hsnap.
Qed.

(** *** The loops of [first_step] *)

Lemma for_each_returns {A} (I : World T E → Prop) (l : list A) (body : A → M unit) :
  (∀ x w, I w → ∃ w', body x w = (Returns (), w') ∧ I w') →
  ∀ w, I w → ∃ w', for_each l body w = (Returns (), w') ∧ I w'.
Proof.
  intros Hbody. induction l as [|x l IH]; intros w Hw; [by exists w|].
  rewrite for_each_cons. destruct (Hbody x w Hw) as (w' & -> & Hw').
  by apply IH.
Qed.

(** [zero_grad] returns; it writes gradients only, and makes none. *)
Lemma zero_grad_returns w :
  ∃ w', zero_grad w = (Returns (), w') ∧
    lists w' = lists w ∧
    self_param_groups w' = self_param_groups w ∧
    self_state w' = self_state w ∧
    ∀ p, data (tensors w' !!! p) = data (tensors w !!! p).
Proof.
  rewrite zero_grad_run.
  apply (for_each_returns (λ w',
    lists w' = lists w ∧ self_param_groups w' = self_param_groups w ∧
    self_state w' = self_state w ∧
    ∀ p, data (tensors w' !!! p) = data (tensors w !!! p))); [|done].
  intros [g q] w' (Hl & Hs & Hst & Hd). unfold get_param, set_grad. run_monad.
  destruct (grad (tensors w' !!! q)); [|by exists w'].
  destruct set_to_none; run_monad; eexists; (split; [done|]);
    split_and!; try done; intros p; simpl;
    rewrite <-Hd;
    (destruct (decide (p = q)) as [->|];
     [by rewrite lookup_total_insert_eq | by rewrite lookup_total_insert_ne]).
Qed.

(** The perturbation loop over distinct parameters returns, and it has
    stored the data it found as the snapshot of every parameter it
    perturbed. *)
Lemma for_each_perturb (scale : Group T → T) (l : list (Group T * loc)) w :
  NoDup l.*2 →
  ∃ w1, for_each l (λ gp, perturb gp.1 (scale gp.1) gp.2) w = (Returns (), w1) ∧
    lists w1 = lists w ∧
    self_param_groups w1 = self_param_groups w ∧
    (∀ p, grad (tensors w1 !!! p) = grad (tensors w !!! p)) ∧
    (∀ p, p ∈ l.*2 → has_grad w p →
          old_p w1 p = Some (data (tensors w !!! p))) ∧
    (∀ p, p ∉ l.*2 → untouched p w w1).
Proof.
  revert w. induction l as [|[g q] l IH]; intros w Hnodup.
  { exists w. split_and!; try done. intros p Hin. by apply elem_of_nil in Hin. }
  rewrite fmap_cons in Hnodup. apply NoDup_cons in Hnodup as [Hq Hnodup].
  rewrite for_each_cons, perturb_run. simpl in *.
  destruct (grad (tensors w !!! q)) as [g0|] eqn:Hg0.
  - set (w' := set_tensors _ _).
    assert (Hgrad' : ∀ p, grad (tensors w' !!! p) = grad (tensors w !!! p)).
    { intros p. subst w'; simpl. destruct (decide (p = q)) as [->|].
      - by rewrite lookup_total_insert_eq.
      - by rewrite lookup_total_insert_ne. }
    destruct (IH w' Hnodup) as (w1 & Hrun & Hl & Hs & Hg & Hold & Hrest).
    exists w1. split_and!; try done.
    + intros p. by rewrite Hg.
    + intros p Hin Hp. destruct (decide (p = q)) as [->|Hne].
      * destruct (Hrest q Hq) as [_ Hst]. unfold old_p. rewrite Hst.
        subst w'; simpl. rewrite lookup_insert_eq. simpl.
        by rewrite lookup_insert_eq.
      * apply elem_of_cons in Hin as [?|Hin]; [done|].
        rewrite Hold; [|done|unfold has_grad in *; by rewrite Hgrad'].
        subst w'; simpl. by rewrite lookup_total_insert_ne.
    + intros p Hin. apply not_elem_of_cons in Hin as [Hne Hin].
      eapply untouched_trans; [|by apply Hrest].
      subst w'; split; simpl; by rewrite lookup_insert_ne.
  - destruct (IH w Hnodup) as (w1 & Hrun & Hl & Hs & Hg & Hold & Hrest).
    exists w1. split_and!; try done.
    + intros p Hin Hp. apply elem_of_cons in Hin as [->|Hin]; [|by apply Hold].
      unfold has_grad in Hp. congruence.
    + intros p Hin. apply not_elem_of_cons in Hin as [Hne Hin]. by apply Hrest.
Qed.

(** After a [first_step] that returns, over distinct parameters, each
    parameter that had a gradient has its former data as snapshot. *)
Lemma first_step_snapshots zg w0 w1 :
  NoDup (all_params w0) →
  first_step zg w0 = (Returns (), w1) →
  groups_of_self w1 = groups_of_self w0 ∧
  ∀ p, p ∈ all_params w0 → has_grad w0 p →
       old_p w1 p = Some (data (tensors w0 !!! p)).
Proof.
  intros Hnodup. rewrite first_step_run.
  pose proof (_grad_norm_pure (set_grad_mode false w0)) as Hpure.
  destruct (_grad_norm (set_grad_mode false w0)) as [[n|e] w]; simpl in Hpure;
    subst w; [|done].
  rewrite bind_run.
  pose proof (for_each_nested (groups_of_self (set_grad_mode false w0)) params
    (λ group, perturb group (s_div (rho group) (s_add n s_eps)))
    (set_grad_mode false w0)) as Hflat. simpl in Hflat. rewrite Hflat. clear Hflat.
  change (groups_of_self (set_grad_mode false w0)) with (groups_of_self w0).
  rewrite all_params_visits in *.
  destruct (for_each_perturb (λ group, s_div (rho group) (s_add n s_eps))
              (group ← groups_of_self w0 ; pair group <$> params group)
              (set_grad_mode false w0) Hnodup)
    as (w & -> & Hl & Hs & Hg & Hold & Hrest).
  simpl in Hl, Hs. destruct zg; simpl.
  - destruct (zero_grad_returns w) as (w' & -> & Hl' & Hs' & Hst' & _).
    unfold leave; simpl. intros [= <-]. split.
    + apply groups_of_self_eq; simpl; congruence.
    + intros p Hin Hp. unfold old_p; simpl. rewrite Hst'. by apply Hold.
  - unfold leave; simpl. intros [= <-]. split.
    + apply groups_of_self_eq; simpl; congruence.
    + intros p Hin Hp. by apply Hold.
Qed.

(** [first_step(zero_grad=True)] returns when [first_step()] does, with
    the same snapshots and the same parameter data. *)
Lemma first_step_zero_grad w w1 :
  first_step false w = (Returns (), w1) →
  ∃ w2, first_step true w = (Returns (), w2) ∧
    self_state w2 = self_state w1 ∧
    ∀ p, data (tensors w2 !!! p) = data (tensors w1 !!! p).
Proof.
  rewrite !first_step_run.
  destruct (_grad_norm (set_grad_mode false w)) as [[n|e] w0]; [|done].
  rewrite !bind_run.
  destruct (for_each _ _ w0) as [[[]|e] wl]; [|done].
  unfold leave; simpl. intros [= <-].
  destruct (zero_grad_returns wl) as (w2 & -> & _ & _ & Hstate & Hdata).
  by exists (set_grad_mode (grad_mode w) w2).
Qed.

(** [self.base_optimizer.step()] is [step()] of the library on the
    object the attribute names. *)
Lemma base_optimizer_step_run w :
  base_optimizer_step w = optimizer_step (self_base_optimizer w) w.
Proof. unfold base_optimizer_step. by rewrite bind_run, gets_run. Qed.

(** The loops of [second_step] leave the attribute [base_optimizer]
    alone. *)
Lemma restore_all_base_optimizer w :
  self_base_optimizer (restore_all w).2 = self_base_optimizer w.
Proof.
  rewrite restore_all_run.
  apply (for_each_invariant
           (λ w', self_base_optimizer w' = self_base_optimizer w)); [|done].
  intros gp w' _ Hw'. rewrite restore_run.
  destruct (grad (tensors w' !!! gp.2)); [|done]. simpl.
  by destruct (default ∅ (self_state w' !! gp.2) !! "old_p").
Qed.

(** What [second_step] does before it steps the base optimizer, and the
    call of [step()] that follows. *)
Lemma restore_all_returns w :
  (∀ p, p ∈ all_params w → has_grad w p → is_Some (old_p w p)) →
  ∃ w1,
    restore_all (set_grad_mode false w) = (Returns (), w1) ∧
    (∀ p, p ∈ all_params w → has_grad w p →
          old_p w p = Some (data (tensors w1 !!! p))) ∧
    (∀ p, grad (tensors w1 !!! p) = grad (tensors w !!! p)) ∧
    (∀ zg, second_step zg w =
           leave (grad_mode w)
             ((optimizer_step (self_base_optimizer w) ;; when zg zero_grad) w1)).
Proof.
  intros Hsnap.
  destruct (for_each_restore snd
    (group ← groups_of_self w ; pair group <$> params group)
    (set_grad_mode false w)) as (w1 & Hrun & _ & _ & Hg & _ & Hdata & _).
  { rewrite <-all_params_visits. apply Hsnap. }
  rewrite <-all_params_visits in Hdata.
  assert (Hall : restore_all (set_grad_mode false w) = (Returns (), w1)).
  { by rewrite restore_all_run. }
  exists w1. split_and!; try done.
  intros zg. rewrite second_step_run, Hall. f_equal.
  pose proof (restore_all_base_optimizer (set_grad_mode false w)) as Hbase.
  rewrite Hall in Hbase. simpl in Hbase.
  by rewrite !bind_run, base_optimizer_step_run, Hbase.
Qed.

(** *** C2 *)

End properties.

(** ** Properties of the update, for every arithmetic *)

Section arithmetic.
Context {T E : Type} `{Scalar T} `{Torch T E}.
Implicit Types w : World T E.

(** *** C1 *)

(** The norms [_grad_norm] stacks when one parameter, of a group that is
    not adaptive, has the gradient [g]: the norm of [1.0 * g]. *)
Lemma grad_norms_single w group p P g d :
  params group = [p] → adaptive group = false →
  tensors w !! p = Some P → grad P = Some g →
  grad_norms (tensors w) d [group] = [torch_norm (t_scale s_one g)].
Proof.
  intros Hp Hadaptive HP Hg. unfold grad_norms.
  rewrite bind_singleton, Hp, bind_singleton.
  by rewrite (lookup_total_correct _ _ _ HP), Hg, Hadaptive.
Qed.

(** The world [first_step()] leaves in the setting of C1. *)
Lemma single_parameter_world w group p P g :
  groups_of_self w = [group] →
  params group = [p] →
  adaptive group = false →
  tensors w !! p = Some P →
  grad P = Some g →
  let n := torch_norm [torch_norm (t_scale s_one g)] in
  let scale := s_div (rho group) (s_add n s_eps) in
  _grad_norm w = (Returns n, w) ∧
  first_step false w =
  (Returns (),
   set_tensors
     (λ h, <[p := mkParam
                    (t_add (data P) (t_mul_scalar (t_scale s_one g) scale))
                    (Some g) (device P)]> h)
     (set_self_state
        (λ st, <[p := <["old_p" := data P]> (default ∅ (st !! p))]> st) w)).
Proof.
  intros Hgroups Hp Hadaptive HP Hg n scale.
  assert (Hn : ∀ w', groups_of_self w' = groups_of_self w →
                     tensors w' = tensors w → _grad_norm w' = (Returns n, w')).
  { intros w' Hgroups' Htensors'.
    rewrite _grad_norm_run, Hgroups', Hgroups, Hp, Htensors'.
    by rewrite (grad_norms_single w group p P g). }
  split; [by apply Hn|].
  rewrite first_step_run, (Hn (set_grad_mode false w)) by done.
  change (groups_of_self (set_grad_mode false w)) with (groups_of_self w).
  rewrite Hgroups. rewrite bind_run, for_each_cons, Hp, for_each_cons, perturb_run.
  simpl. rewrite (lookup_total_correct _ _ _ HP), Hg. simpl.
  unfold leave; simpl. f_equal.
  destruct w; unfold set_tensors, set_self_state, set_grad_mode; simpl. f_equal.
  do 3 f_equal. unfold e_w. by rewrite Hadaptive.
Qed.

(** C1.  One group with [adaptive=False] and one parameter [p], whose
    data is [data P] and whose gradient is [g].  [_grad_norm] returns
    [n], the norm of the stack that holds the norm of [1.0 * g], and
    [first_step] returns, with either value of [zero_grad].  The data of
    [p] is then [data P + (1.0 * g) * scale] with the scale
    [rho / (n + 1e-12)] of line 41, the operations of the scalar
    arithmetic taken in this order, and the state of [p] holds [data P],
    the former data, under ["old_p"].  Without [zero_grad] nothing else
    has changed. *)
Theorem first_step_single_parameter :
  ∀ w group p P g zg,
    groups_of_self w = [group] →
    params group = [p] →
    adaptive group = false →
    tensors w !! p = Some P →
    grad P = Some g →
    let n := torch_norm [torch_norm (t_scale s_one g)] in
    let scale := s_div (rho group) (s_add n s_eps) in
    _grad_norm w = (Returns n, w) ∧
    ∃ w',
      first_step zg w = (Returns (), w') ∧
      data (tensors w' !!! p) =
        t_add (data P) (t_mul_scalar (t_scale s_one g) scale) ∧
      old_p w' p = Some (data P) ∧
      (zg = false →
       w' = set_tensors
              (λ h, <[p := mkParam
                             (t_add (data P) (t_mul_scalar (t_scale s_one g) scale))
                             (Some g) (device P)]> h)
              (set_self_state
                 (λ st, <[p := <["old_p" := data P]> (default ∅ (st !! p))]> st) w)).
Proof.
  intros w group p P g zg Hgroups Hp Hadaptive HP Hg n scale.
  destruct (single_parameter_world w group p P g
              Hgroups Hp Hadaptive HP Hg) as [Hn Hworld].
  fold n scale in Hn, Hworld. split; [done|].
  set (w1 := set_tensors _ _) in Hworld.
  assert (Hdata1 : data (tensors w1 !!! p) =
            t_add (data P) (t_mul_scalar (t_scale s_one g) scale)).
  { subst w1; simpl. by rewrite lookup_total_insert_eq. }
  assert (Hold1 : old_p w1 p = Some (data P)).
  { subst w1; unfold old_p; simpl. rewrite lookup_insert_eq. simpl.
    by rewrite lookup_insert_eq. }
  destruct zg.
  - destruct (first_step_zero_grad w w1 Hworld) as (w2 & Hrun & Hstate & Hdata).
    exists w2. split_and!; [done| |unfold old_p in *|done].
    + by rewrite Hdata.
    + by rewrite Hstate.
  - by exists w1.
Qed.

(** *** C3 *)

Lemma scale_grads_lookup (f : Tensor T → Tensor T) w p :
  tensors (scale_grads f w) !!! p =
  mkParam (data (tensors w !!! p)) (f <$> grad (tensors w !!! p))
          (device (tensors w !!! p)).
Proof.
  unfold scale_grads; simpl. rewrite !lookup_total_alt, lookup_fmap.
  by destruct (tensors w !! p).
Qed.

Lemma bind_fmap_ext_in {A B} (h : B → B) (f f' : A → list B) (l : list A) :
  (∀ a, a ∈ l → f' a = h <$> f a) → l ≫= f' = h <$> (l ≫= f).
Proof.
  induction l as [|a l IH]; intros Hf; [done|].
  rewrite !bind_cons, fmap_app, Hf by left. f_equal.
  apply IH. intros b Hb. apply Hf. by right.
Qed.

(** When the norm of every weighted gradient of [gs] takes the factor
    [c] with the gradient, so does the list of norms. *)
Lemma grad_norms_scale_grads (mul_c : Tensor T → Tensor T) (c : T) w d gs :
  (∀ group p g,
     group ∈ gs → p ∈ params group → grad (tensors w !!! p) = Some g →
     torch_norm (weighted_grad (adaptive group) (tensors w !!! p) (mul_c g)) =
     s_mul c (torch_norm (weighted_grad (adaptive group) (tensors w !!! p) g))) →
  grad_norms (tensors (scale_grads mul_c w)) d gs =
  s_mul c <$> grad_norms (tensors w) d gs.
Proof.
  intros Hnorm. unfold grad_norms. apply bind_fmap_ext_in. intros group Hgroup.
  apply bind_fmap_ext_in. intros p Hp. rewrite scale_grads_lookup. simpl.
  destruct (grad (tensors w !!! p)) as [g|] eqn:Hg; simpl; [|done].
  unfold to_device. f_equal. rewrite <-(Hnorm group p g) by done.
  by destruct (adaptive group).
Qed.

Lemma weighted_grad_zero a (P : Param T) g :
  s_mul s_one s_zero = s_zero →
  (a = true → ∀ x, x ∈ data P → s_mul (s_abs x) s_zero = s_zero) →
  Forall (λ r, r = s_zero) g → Forall (λ r, r = s_zero) (weighted_grad a P g).
Proof.
  intros Hone Habs Hg. unfold weighted_grad. destruct a.
  - specialize (Habs eq_refl). unfold t_mul, t_abs.
    revert Habs. generalize (data P). intros d.
    induction Hg as [|gi g -> _ IH] in d |- *; intros Habs;
      destruct d as [|xi d]; simpl; try by constructor.
    constructor; [apply Habs; left|]. apply IH. intros x Hx. apply Habs. by right.
  - unfold t_scale. induction Hg as [|gi g -> _ IH]; simpl; by constructor.
Qed.

Lemma grad_norms_zero w d :
  s_mul s_one s_zero = s_zero →
  (∀ group p x,
     group ∈ groups_of_self w → adaptive group = true → p ∈ params group →
     x ∈ data (tensors w !!! p) → s_mul (s_abs x) s_zero = s_zero) →
  (∀ x, Forall (λ xi, xi = s_zero) x → torch_norm x = s_zero) →
  all_grads_zero s_zero w →
  Forall (λ r, r = s_zero) (grad_norms (tensors w) d (groups_of_self w)).
Proof.
  intros Hone Habs Hnorm Hzero. unfold grad_norms.
  apply Forall_bind, Forall_forall.
  intros group Hgroup. apply Forall_bind, Forall_forall. intros p Hp. simpl.
  destruct (grad (tensors w !!! p)) as [g|] eqn:Hg; [|constructor].
  repeat constructor. unfold to_device.
  apply Hnorm, weighted_grad_zero; [done| |].
  - intros Ha x Hx. by apply (Habs group p x).
  - apply (Hzero p); [|done]. unfold all_params. apply list_elem_of_bind. eauto.
Qed.

Lemma grad_norms_nonempty w d p :
  p ∈ all_params w → has_grad w p →
  grad_norms (tensors w) d (groups_of_self w) ≠ [].
Proof.
  unfold all_params, has_grad, grad_norms. intros Hin Hp Hnil.
  apply list_elem_of_bind in Hin as (group & Hin & Hgroup).
  destruct (grad (tensors w !!! p)) as [g|] eqn:Hg; [|done].
  assert (Helem : to_device d (torch_norm (weighted_grad (adaptive group)
                    (tensors w !!! p) g))
            ∈ (groups_of_self w ≫= λ group, params group ≫= λ p,
                 match grad (tensors w !!! p) with
                 | Some g => [to_device d (torch_norm (weighted_grad (adaptive group)
                                                     (tensors w !!! p) g))]
                 | None => []
                 end)).
  { apply list_elem_of_bind. exists group. split; [|done].
    apply list_elem_of_bind. exists p. split; [|done]. rewrite Hg. by left. }
  rewrite Hnil in Helem. by apply elem_of_nil in Helem.
Qed.

End arithmetic.

(** ** Properties on binary64 numbers *)

Section binary64.
Context {E : Type} `{Torch float E}.
Implicit Types w : World float E.

(** The comparisons of Python floats with [0.0]: a negative number is
    not [>= 0.0]. *)
Lemma negative_not_geb (x : float) :
  (x <? 0)%float = true → (0 <=? x)%float = false.
Proof.
  rewrite ltb_spec, leb_spec. change (Prim2SF 0) with (S754_zero false).
  by destruct (Prim2SF x) as [[]|[]| |[] m e].
Qed.

(** The 2-norm by the book of an all-zero tensor is zero. *)
Lemma t_norm_zero (x : Tensor float) :
  Forall (λ xi, xi = 0%float) x → t_norm x = 0%float.
Proof.
  intros Hx. unfold t_norm, sum_squares.
  assert (Hsum : foldl (λ acc xi, s_add acc (s_mul xi xi)) 0%float x = 0%float).
  { induction Hx as [|xi x -> _ IH]; [done|]. simpl. exact IH. }
  simpl in *. by rewrite Hsum.
Qed.

(** *** C6 *)

(** C6.  [rho] is a Python float.  For [rho < 0.0] the constructor raises
    [AssertionError] before it has done anything: the world is unchanged.
    For [rho >= 0.0] the assertion passes, and the constructor returns
    once the constructors of the library, [Optimizer.__init__] and
    [base_optimizer], have returned: nothing else in it can raise.  A
    [rho] that is neither, a NaN, fails the assertion as well. *)
Theorem init_checks_rho :
  ∀ params (base_optimizer : ParamsArg → gmap string (HVal float) →
                             M float E (Optimizer float))
    (rho : float) adaptive kwargs w,
    ((rho <? 0)%float = true →
       __init__ params base_optimizer rho adaptive kwargs w =
       (Raises (AssertionError "Invalid rho, should be non-negative"), w)) ∧
    ((0 <=? rho)%float = true →
       ∀ w1 b w2,
         Optimizer___init__ params
           (<["rho" := HFloat rho]> (<["adaptive" := HBool adaptive]> kwargs)) w
           = (Returns (), w1) →
         base_optimizer (GroupList (self_param_groups w1)) kwargs w1
           = (Returns b, w2) →
         __init__ params base_optimizer rho adaptive kwargs w =
         (Returns (),
          set_self_defaults (opt_defaults b ∪ self_defaults w2)
            (set_self_param_groups (opt_param_groups b)
               (set_self_base_optimizer b w2)))) ∧
    ((rho <? 0)%float = false → (0 <=? rho)%float = false →
       __init__ params base_optimizer rho adaptive kwargs w =
       (Raises (AssertionError "Invalid rho, should be non-negative"), w)).
Proof.
  intros params base_optimizer rho adaptive kwargs w. split_and!.
  - intros Hrho. apply __init___assertion_fails. by apply negative_not_geb.
  - intros Hrho w1 b w2. by apply __init___assertion_passes.
  - intros _ Hrho. by apply __init___assertion_fails.
Qed.
End binary64.

(** ** The statements at concrete worlds *)

(** A closure made by [closure_of] returns and writes gradients only. *)
Lemma closure_of_writes_gradients_only {T : Type} `{Scalar T}
    (gs : list (loc * option (Tensor T))) (w : World T (list (gmap loc (Tensor T)))) :
  ∃ w', closure_of gs (set_grad_mode true w) = (Returns (), w') ∧
        writes_gradients_only w w'.
Proof.
  unfold closure_of.
  destruct (for_each_returns (T:=T) (E:=list (gmap loc (Tensor T)))
    (λ w', writes_gradients_only w w') gs (λ pg, set_grad pg.1 pg.2)) with
    (w := set_grad_mode true w) as (w' & Hrun & Hw'); [| |by exists w'].
  - intros [p g] w' (Hgroups & Hstate & Hdata). unfold set_grad. run_monad.
    eexists. split; [done|]. split_and!; [done..|].
    intros q. rewrite <-Hdata. simpl. destruct (decide (q = p)) as [->|].
    + by rewrite lookup_total_insert_eq.
    + by rewrite lookup_total_insert_ne.
  - by split_and!.
Qed.

Lemma first_step_single_parameter_witness :
  let w := one_param [1; 2]%float [3; 4]%float s_rho_default in
  _grad_norm w = (Returns 5%float, w) ∧
  ∃ w',
    first_step true w = (Returns (), w') ∧
    data (tensors w' !!! 1%positive) =
      t_add [1; 2]%float
            (t_mul_scalar (t_scale 1%float [3; 4]%float)
                          (s_div s_rho_default (s_add 5%float s_eps))) ∧
    old_p w' 1%positive = Some [1; 2]%float.
Proof.
  intros w.
  destruct (first_step_single_parameter w
              (mkGroup [1%positive] s_rho_default false ∅) 1%positive
              (mkParam [1; 2]%float (Some [3; 4]%float) 0) [3; 4]%float true
              eq_refl eq_refl eq_refl eq_refl eq_refl)
    as [Hn (w' & Hrun & Hdata & Hold & _)].
  split; [exact Hn|]. by exists w'.
Defined.

(** The formula [w + rho * g / (|g| + 1e-12)] is not what [first_step]
    leaves in the parameter.  With [w = 0], [g = 2^500] and
    [rho = 2^-600] the norm is [2^500] and the formula gives [2^-600],
    whether the product or the quotient is taken first; the scale
    [rho / (|g| + 1e-12)] of line 41 underflows to [0.0], and the
    parameter stays at [0.0]. *)
Lemma first_step_formula_underflows :
  let w := tiny_radius in
  let rho := 0x1p-600%float in
  let g := 0x1p500%float in
  let n := 0x1p500%float in
  _grad_norm w = (Returns n, w) ∧
  t_norm [g] = n ∧
  (0 + rho * g / (n + s_eps) = rho)%float ∧
  (0 + rho * (g / (n + s_eps)) = rho)%float ∧
  (rho / (n + s_eps) = 0)%float ∧
  (first_step false w).1 = Returns () ∧
  data (tensors (first_step false w).2 !!! 1%positive) = [0%float] ∧
  old_p (first_step false w).2 1%positive = Some [0%float] ∧
  data (tensors (first_step false w).2 !!! 1%positive)
    ≠ [(0 + rho * g / (n + s_eps))%float].
Proof.
  intros w rho g n. split_and!; by vm_compute.
Qed.

Lemma grad_norm_needs_first_param_witness :
  _grad_norm empty_first_group = (Raises IndexError, empty_first_group) ∧
  first_step true empty_first_group = (Raises IndexError, empty_first_group) ∧
  step (Some closure_1) empty_first_group = (Raises IndexError, empty_first_group) ∧
  (_grad_norm two_params).1 ≠ Raises IndexError.
Proof.
  destruct (grad_norm_needs_first_param empty_first_group
              (mkGroup [] s_rho_default false ∅)
              [mkGroup [1%positive; 2%positive] s_rho_default false ∅] eq_refl)
    as [Hempty _].
  destruct (Hempty eq_refl) as (Hnorm & Hfirst & Hstep).
  destruct (grad_norm_needs_first_param two_params
              (mkGroup [1%positive; 2%positive] s_rho_default false ∅) [] eq_refl)
    as [_ Hfull].
  split_and!; [exact Hnorm|exact (Hfirst true)|exact (Hstep closure_1)|].
  apply Hfull. discriminate.
Defined.

Lemma select_optimizer_routes_witness :
  select_optimizer "bogus" [1%positive; 2%positive] 1%float 0%float (0, 0)%float
    (blank (tensors two_params)) =
  (Raises (ValueError "Unsupported optimizer"), blank (tensors two_params)).
Proof.
  apply (select_optimizer_routes [1%positive; 2%positive] 1%float 0%float (0, 0)%float).
  unfold optimizer_names. intros Hin.
  repeat (apply elem_of_cons in Hin as [Hin|Hin]; [discriminate|]).
  by apply elem_of_nil in Hin.
Defined.

Lemma load_state_dict_shares_groups_witness :
  let w' := (@load_state_dict float _ recording_torch one_group_dict two_params).2 in
  opt_param_groups (self_base_optimizer w') = self_param_groups w' ∧
  lists w' !!! opt_param_groups (self_base_optimizer w') = groups_of_self w'.
Proof.
  apply (@load_state_dict_shares_groups float _ recording_torch
           one_group_dict two_params).
  vm_compute. reflexivity.
Defined.

Lemma gradless_parameters_are_skipped_witness :
  untouched 2%positive two_params (first_step true two_params).2 ∧
  untouched 2%positive two_params_perturbed
    (restore_all (set_grad_mode false two_params_perturbed)).2 ∧
  restore_all (tamper 2%positive (λ _, Some {["old_p" := [0]%float]})
                 two_params_perturbed) =
    ((restore_all two_params_perturbed).1,
     tamper 2%positive (λ _, Some {["old_p" := [0]%float]})
       (restore_all two_params_perturbed).2).
Proof.
  destruct (gradless_parameters_are_skipped two_params 2%positive eq_refl)
    as (Hfirst & _ & _ & _).
  destruct (gradless_parameters_are_skipped two_params_perturbed 2%positive)
    as (_ & _ & Hsecond & Hstate); [by vm_compute|].
  split_and!; [exact (Hfirst true)|exact Hsecond|].
  exact (Hstate (λ _, Some {["old_p" := [0]%float]})).
Defined.

Lemma second_step_needs_snapshot_witness :
  let w := (closure_2 two_params_perturbed).2 in
  second_step false w =
  (Raises (KeyError "old_p"),
   set_grad_mode (grad_mode w) (restore_all (set_grad_mode false w)).2) ∧
  (restore_all (set_grad_mode false (closure_1 two_params_perturbed).2)).1 = Returns ().
Proof.
  split.
  - apply (second_step_needs_snapshot (closure_2 two_params_perturbed).2 false)
      with (p := 2%positive).
    + replace (all_params (closure_2 two_params_perturbed).2)
        with [1%positive; 2%positive] by (by vm_compute).
      right. left.
    + unfold has_grad. by vm_compute.
    + by vm_compute.
  - apply (second_step_needs_snapshot (closure_1 two_params_perturbed).2 false).
    intros p Hin Hp.
    replace (all_params (closure_1 two_params_perturbed).2)
      with [1%positive; 2%positive] in Hin by (by vm_compute).
    apply elem_of_cons in Hin as [->|Hin]; [vm_compute; by eexists|].
    apply elem_of_cons in Hin as [->|Hin]; [|by apply elem_of_nil in Hin].
    exfalso. apply Hp. by vm_compute.
Defined.





Lemma init_checks_rho_witness :
  let w := blank (T:=float) {[1%positive := mkParam [1; 2]%float None 0]} in
  __init__ (ParamList [1%positive]) rec_constructor (-1)%float false ∅ w =
    (Raises (AssertionError "Invalid rho, should be non-negative"), w) ∧
  (__init__ (ParamList [1%positive]) rec_constructor s_rho_default false ∅ w).1
    = Returns () ∧
  __init__ (ParamList [1%positive]) rec_constructor nan false ∅ w =
    (Raises (AssertionError "Invalid rho, should be non-negative"), w).
Proof.
  intros w.
  destruct (init_checks_rho (ParamList [1%positive]) rec_constructor (-1)%float
              false ∅ w) as (Hfails & _ & _).
  destruct (init_checks_rho (ParamList [1%positive]) rec_constructor s_rho_default
              false ∅ w) as (_ & Hpasses & _).
  destruct (init_checks_rho (ParamList [1%positive]) rec_constructor nan
              false ∅ w) as (_ & _ & Hnan).
  split_and!.
  - apply Hfails. by vm_compute.
  - set (r1 := Optimizer___init__ (ParamList [1%positive])
                 (<["rho" := HFloat (s_rho_default : float)]>
                    (<["adaptive" := HBool false]> ∅)) w).
    set (r2 := rec_constructor (GroupList (self_param_groups r1.2)) ∅ r1.2).
    rewrite (Hpasses ltac:(by vm_compute) r1.2 (mkOptimizer 3%positive ∅) r2.2);
      by vm_compute.
  - apply Hnan; by vm_compute.
Defined.

(** *** Runs on binary64 numbers *)

(** [first_step] on [two_params]: parameter [1] moves by
    [g * (rho / (|g| + 1e-12))] with [|g| = 5], its data is kept under
    ["old_p"], and parameter [2] has no entry. *)
Example first_step_on_floats :
  let w' := (first_step false two_params).2 in
  (first_step false two_params).1 = Returns () ∧
  (_grad_norm two_params).1 = Returns 5%float ∧
  data (tensors w' !!! 1%positive) =
    [1 + 1 * 3 * (s_rho_default / (5 + s_eps)); 2 + 1 * 4 * (s_rho_default / (5 + s_eps))]%float ∧
  old_p w' 1%positive = Some [1; 2]%float ∧
  self_state w' !! 2%positive = None.
Proof. vm_compute. by split_and!. Qed.

(** A full [step]: the base optimizer is stepped once, on the data the
    parameters had before the perturbation, and with the gradients of the
    closure. *)
Example step_on_floats :
  let w' := (step (Some closure_1) two_params).2 in
  (step (Some closure_1) two_params).1 = Returns () ∧
  ext w' = [data <$> tensors two_params] ∧
  data (tensors w' !!! 1%positive) = [1; 2]%float ∧
  grad (tensors w' !!! 1%positive) = Some [1; 1]%float ∧
  grad_mode w' = grad_mode two_params.
Proof. vm_compute. by split_and!. Qed.

(** With all gradients zero the norm is [0] and the scale
    [rho / (0 + 1e-12)] is a finite number. *)
Example zero_gradient_scale_on_floats :
  let w := zero_gradient in
  (_grad_norm w).1 = Returns 0%float ∧
  is_finite (s_div s_rho_default (s_add 0%float s_eps)) = true ∧
  data (tensors (first_step false w).2 !!! 1%positive) = [1; 2]%float.
Proof. vm_compute. by split_and!. Qed.

(** [select_optimizer "SAM"] on a blank world builds the instance: its
    groups and those of the base optimizer are one list object. *)
Example select_SAM_on_floats :
  let r := select_optimizer "SAM" [1%positive; 2%positive] 1%float 0%float (0, 0)%float
             (blank (tensors two_params)) in
  r.1 = Returns SAM_instance ∧
  opt_param_groups (self_base_optimizer r.2) = self_param_groups r.2 ∧
  params <$> groups_of_self r.2 = [[1%positive; 2%positive]] ∧
  rho <$> groups_of_self r.2 = [s_rho_default] ∧
  adaptive <$> groups_of_self r.2 = [false].
Proof. vm_compute. by split_and!. Qed.

(** Each of the seven names builds an optimizer on the recording library. *)
Example select_all_on_floats :
  Forall (λ name,
            ∃ o w', select_optimizer name [1%positive; 2%positive] 1%float 0%float
                      (0, 0)%float (blank (tensors two_params)) = (Returns o, w'))
         optimizer_names.
Proof. repeat constructor; vm_compute; by do 2 eexists. Qed.

(** [Optimizer.load_state_dict] alone makes a new list of groups for the
    [SAM] instance and leaves the base optimizer on the old one; the last
    line of [load_state_dict] brings the two together. *)
Example load_state_dict_on_floats :
  let w1 := (@Optimizer_load_state_dict float _ recording_torch
               one_group_dict two_params).2 in
  let w2 := (@load_state_dict float _ recording_torch one_group_dict two_params).2 in
  opt_param_groups (self_base_optimizer w1) ≠ self_param_groups w1 ∧
  opt_param_groups (self_base_optimizer w2) = self_param_groups w2 ∧
  adaptive <$> lists w2 !!! opt_param_groups (self_base_optimizer w2) = [true].
Proof. vm_compute. by split_and!. Qed.

(** ** Further properties, for every scalar type and every library *)

Section further_properties.
Context {T E : Type} `{Scalar T} `{Torch T E}.
Implicit Types w : World T E.

Local Abbreviation M := (M T E).

(** *** Construction *)

(** The shape of a call of [__init__] that returns. *)
Lemma __init___returns params
    (base_optimizer : ParamsArg → gmap string (HVal T) → M (Optimizer T))
    rho adaptive kwargs w w' :
  __init__ params base_optimizer rho adaptive kwargs w = (Returns (), w') →
  s_geb rho s_zero = true ∧
  ∃ w1 b w2,
    Optimizer___init__ params
      (<["rho" := HFloat rho]> (<["adaptive" := HBool adaptive]> kwargs)) w
      = (Returns (), w1) ∧
    base_optimizer (GroupList (self_param_groups w1)) kwargs w1 = (Returns b, w2) ∧
    w' = set_self_defaults (opt_defaults b ∪ self_defaults w2)
           (set_self_param_groups (opt_param_groups b)
              (set_self_base_optimizer b w2)).
Proof.
  unfold __init__, assert. rewrite bind_run.
  destruct (s_geb rho s_zero); [|by run_monad]. run_monad.
  destruct (Optimizer___init__ _ _ w) as [[[]|e] w1]; [|done]. run_monad.
  destruct (base_optimizer _ _ w1) as [[b|e] w2] eqn:Hbase; [|done]. run_monad.
  intros [= <-]. split; [done|]. by exists w1, b, w2.
Qed.

(** X1.  When [__init__] returns, [self.param_groups] and the
    [param_groups] of the base optimizer are one list object, every
    default of the base optimizer is a default of the instance, with the
    value the base optimizer gives it, and [rho >= 0.0] held. *)
Theorem init_shares_groups :
  ∀ params (base_optimizer : ParamsArg → gmap string (HVal T) → M (Optimizer T))
    rho adaptive kwargs w w',
    __init__ params base_optimizer rho adaptive kwargs w = (Returns (), w') →
    opt_param_groups (self_base_optimizer w') = self_param_groups w' ∧
    lists w' !!! opt_param_groups (self_base_optimizer w') = groups_of_self w' ∧
    (∀ k v, opt_defaults (self_base_optimizer w') !! k = Some v →
            self_defaults w' !! k = Some v) ∧
    s_geb rho s_zero = true.
Proof.
  intros params base_optimizer rho adaptive kwargs w w' Hinit.
  destruct (__init___returns _ _ _ _ _ _ _ Hinit) as (Hrho & w1 & b & w2 & _ & _ & ->).
  simpl. split_and!; [done..| |done].
  intros k v Hk. by apply lookup_union_Some_l.
Qed.

(** *** [first_step]: what can fail, and what is never written *)

Lemma _grad_norm_mode b w :
  _grad_norm (set_grad_mode b w) = ((_grad_norm w).1, set_grad_mode b w).
Proof.
  rewrite !_grad_norm_run.
  change (groups_of_self (set_grad_mode b w)) with (groups_of_self w).
  change (tensors (set_grad_mode b w)) with (tensors w).
  destruct (groups_of_self w) as [|group0 gs]; [done|].
  destruct (params group0) as [|p0 ps]; [done|].
  by destruct (grad_norms _ _ _).
Qed.

(** A loop whose body returns and keeps [I], on the elements of the
    list, returns and keeps [I]. *)
Lemma for_each_returns_in {A} (I : World T E → Prop) (l : list A) (body : A → M unit) :
  (∀ x w, x ∈ l → I w → ∃ w', body x w = (Returns (), w') ∧ I w') →
  ∀ w, I w → ∃ w', for_each l body w = (Returns (), w') ∧ I w'.
Proof.
  induction l as [|x l IH]; intros Hbody w Hw; [by exists w|].
  rewrite for_each_cons.
  destruct (Hbody x w) as (w' & -> & Hw'); [left|done|].
  apply IH; [|done]. intros y w'' Hy. apply Hbody. by right.
Qed.

Lemma same_attributes_refl w : same_attributes w w.
Proof. by split_and!. Qed.

Lemma same_attributes_trans w1 w2 w3 :
  same_attributes w1 w2 → same_attributes w2 w3 → same_attributes w1 w3.
Proof.
  intros (?&?&?&?&?&?) (?&?&?&?&?&?). split_and!; congruence.
Qed.

Lemma zero_grad_same_attributes w :
  ∃ w', zero_grad w = (Returns (), w') ∧ same_attributes w w'.
Proof.
  rewrite zero_grad_run.
  apply (for_each_returns (λ w', same_attributes w w')); [|apply same_attributes_refl].
  intros [g q] w' Hw'. unfold get_param, set_grad. run_monad.
  destruct (grad (tensors w' !!! q)); [|by exists w'].
  destruct set_to_none; run_monad; eexists; (split; [done|]);
    (eapply same_attributes_trans; [done|]); by split_and!.
Qed.

(** The perturbation loop returns; it writes parameter data and
    snapshots, no gradient and no attribute. *)
Lemma for_each_perturb_frame (scale : Group T → T) (l : list (Group T * loc)) w :
  ∃ w1, for_each l (λ gp, perturb gp.1 (scale gp.1) gp.2) w = (Returns (), w1) ∧
    same_attributes w w1 ∧
    ∀ p, grad (tensors w1 !!! p) = grad (tensors w !!! p).
Proof.
  apply (for_each_returns
           (λ w', same_attributes w w' ∧
                  ∀ p, grad (tensors w' !!! p) = grad (tensors w !!! p)));
    [|split; [apply same_attributes_refl|done]].
  intros [g q] w' [Hattr Hgrad]. rewrite perturb_run. simpl.
  destruct (grad (tensors w' !!! q)) as [g0|] eqn:Hq; [|by exists w'].
  eexists. split; [done|]. split.
  - eapply same_attributes_trans; [done|]. by split_and!.
  - intros p. rewrite <-Hgrad. simpl. destruct (decide (p = q)) as [->|].
    + by rewrite lookup_total_insert_eq.
    + by rewrite lookup_total_insert_ne.
Qed.

Lemma first_step_raises zg w e :
  (_grad_norm w).1 = Raises e → first_step zg w = (Raises e, w).
Proof.
  intros He. rewrite first_step_run, _grad_norm_mode, He.
  unfold leave; simpl. by rewrite set_grad_mode_twice, set_grad_mode_same.
Qed.

(** X2.  [first_step] raises exactly when [_grad_norm] does: it raises
    the same exception and has then written nothing.  When [_grad_norm]
    returns, [first_step] returns; it has changed no attribute of the
    optimizer, no list of groups and nothing outside, and without
    [zero_grad] it has changed no gradient. *)
Theorem first_step_fails_early :
  ∀ zg w,
    (∀ e, (_grad_norm w).1 = Raises e → first_step zg w = (Raises e, w)) ∧
    (∀ n, (_grad_norm w).1 = Returns n →
       ∃ w', first_step zg w = (Returns (), w') ∧
             same_attributes w w' ∧
             (zg = false → ∀ p, grad (tensors w' !!! p) = grad (tensors w !!! p))).
Proof.
  intros zg w. split.
  - intros e. apply first_step_raises.
  - intros n Hn. rewrite first_step_run, _grad_norm_mode, Hn. rewrite bind_run.
    pose proof (for_each_nested (groups_of_self (set_grad_mode false w)) params
      (λ group, perturb group (s_div (rho group) (s_add n s_eps)))
      (set_grad_mode false w)) as Hflat. simpl in Hflat. rewrite Hflat. clear Hflat.
    destruct (for_each_perturb_frame (λ group, s_div (rho group) (s_add n s_eps))
                (group ← groups_of_self (set_grad_mode false w) ;
                 pair group <$> params group)
                (set_grad_mode false w)) as (w1 & -> & Hattr & Hgrad).
    assert (Hattr' : ∀ w2, same_attributes w1 w2 →
              same_attributes w (set_grad_mode (grad_mode w) w2)).
    { intros w2 Hw2.
      destruct (same_attributes_trans _ _ _ Hattr Hw2) as (?&?&?&?&?&?).
      by split_and!. }
    destruct zg; simpl.
    + destruct (zero_grad_same_attributes w1) as (w2 & -> & Hw2).
      eexists. split; [done|]. split; [by apply Hattr'|done].
    + eexists. split; [done|]. split; [apply Hattr', same_attributes_refl|].
      intros _ p. apply Hgrad.
Qed.

(** [step] with a closure, by cases on how its three parts end. *)
Lemma step_run (closure : M unit) w :
  step (Some closure) w =
  leave (grad_mode w)
    match first_step true (set_grad_mode false w) with
    | (Raises e, w1) => (Raises e, w1)
    | (Returns _, w1) =>
        match closure (set_grad_mode true w1) with
        | (Raises e, w2) => (Raises e, set_grad_mode false w2)
        | (Returns _, w2) => second_step false (set_grad_mode false w2)
        end
    end.
Proof.
  unfold step, no_grad at 1. rewrite with_grad_mode_run. f_equal. rewrite bind_run.
  pose proof (first_step_run true (set_grad_mode false w)) as Hrun.
  destruct (first_step true (set_grad_mode false w)) as [[[]|e] w1]; [|done].
  assert (Hmode : grad_mode w1 = false).
  { unfold leave in Hrun. by injection Hrun as _ ->. }
  rewrite bind_run. unfold enable_grad. rewrite with_grad_mode_run, Hmode.
  unfold leave. by destruct (closure _) as [[[]|e] w2].
Qed.

Lemma grad_norms_no_grad (h : gmap loc (Param T)) d (gs : list (Group T)) :
  (∀ p, p ∈ (group ← gs ; params group) → grad (h !!! p) = None) →
  grad_norms h d gs = [].
Proof.
  unfold grad_norms. induction gs as [|g gs IH]; intros Hnone; [done|].
  rewrite bind_cons in Hnone. rewrite bind_cons, IH, app_nil_r.
  - assert (Hg : ∀ p, p ∈ params g → grad (h !!! p) = None).
    { intros p Hp. apply Hnone, elem_of_app. by left. }
    revert Hg. generalize (params g). intros ps.
    induction ps as [|p ps IHp]; intros Hg; [done|].
    rewrite bind_cons, (Hg p) by left. simpl. apply IHp.
    intros q Hq. apply Hg. by right.
  - intros p Hp. apply Hnone, elem_of_app. by right.
Qed.

(** X3.  When the first group has a parameter and no parameter of the
    groups has a gradient, [_grad_norm], [first_step] and [step] raise the
    [RuntimeError] of [torch.stack] on an empty list and leave the world
    as it was; [step] has not called the closure. *)
Theorem no_gradient_no_step :
  ∀ w group0 gs,
    groups_of_self w = group0 :: gs →
    params group0 ≠ [] →
    (∀ p, p ∈ all_params w → grad (tensors w !!! p) = None) →
    let e := RuntimeError "stack expects a non-empty TensorList" in
    _grad_norm w = (Raises e, w) ∧
    (∀ zg, first_step zg w = (Raises e, w)) ∧
    (∀ closure, step (Some closure) w = (Raises e, w)).
Proof.
  intros w group0 gs Hgroups Hparams Hnone e.
  assert (Hnorm : ∀ b, _grad_norm (set_grad_mode b w) = (Raises e, set_grad_mode b w)).
  { intros b. rewrite _grad_norm_run.
    change (groups_of_self (set_grad_mode b w)) with (groups_of_self w).
    rewrite Hgroups. destruct (params group0) as [|p0 ps]; [done|].
    rewrite <-Hgroups. by rewrite grad_norms_no_grad. }
  assert (Hfirst : ∀ zg b, first_step zg (set_grad_mode b w)
                           = (Raises e, set_grad_mode b w)).
  { intros zg b.
    apply (first_step_raises zg (set_grad_mode b w)). by rewrite Hnorm. }
  split_and!.
  - specialize (Hnorm (grad_mode w)). by rewrite set_grad_mode_same in Hnorm.
  - intros zg. specialize (Hfirst zg (grad_mode w)).
    by rewrite set_grad_mode_same in Hfirst.
  - intros closure. rewrite step_run, Hfirst. unfold leave; simpl.
    by rewrite set_grad_mode_twice, set_grad_mode_same.
Qed.

(** *** [first_step]: every parameter is perturbed once *)

(** The perturbation loop over distinct parameters leaves in every
    gradient-bearing parameter its former data plus the [e_w] computed
    from its former data. *)
Lemma for_each_perturb_data (scale : Group T → T) (l : list (Group T * loc)) w :
  NoDup l.*2 →
  ∃ w1, for_each l (λ gp, perturb gp.1 (scale gp.1) gp.2) w = (Returns (), w1) ∧
    (∀ group p g, (group, p) ∈ l → grad (tensors w !!! p) = Some g →
       data (tensors w1 !!! p) =
       t_add (data (tensors w !!! p))
             (e_w (adaptive group) (tensors w !!! p) g (scale group))) ∧
    (∀ p, p ∉ l.*2 → tensors w1 !! p = tensors w !! p).
Proof.
  revert w. induction l as [|[g0 q] l IH]; intros w Hnodup.
  { exists w. split_and!; try done. intros group p g Hin. by apply elem_of_nil in Hin. }
  rewrite fmap_cons in Hnodup. apply NoDup_cons in Hnodup as [Hq Hnodup].
  rewrite for_each_cons, perturb_run. simpl in *.
  destruct (grad (tensors w !!! q)) as [gq|] eqn:Hgq.
  - set (w' := set_tensors _ _).
    destruct (IH w' Hnodup) as (w1 & Hrun & Hdata & Hrest).
    exists w1. split_and!; [done| |].
    + intros group p g Hin Hg. apply elem_of_cons in Hin as [[= -> ->]|Hin].
      * rewrite (lookup_total_eq _ _ _ (Hrest q Hq)). subst w'; simpl.
        rewrite lookup_total_insert_eq. simpl. congruence.
      * assert (p ≠ q).
        { intros ->. apply Hq. by apply (list_elem_of_fmap_2 snd _ (group, q)). }
        assert (Hp' : tensors w' !!! p = tensors w !!! p).
        { subst w'; simpl. by rewrite lookup_total_insert_ne. }
        rewrite (Hdata group p g Hin); rewrite Hp'; done.
    + intros p Hin. apply not_elem_of_cons in Hin as [Hne Hin].
      rewrite Hrest by done. subst w'; simpl. by rewrite lookup_insert_ne.
  - destruct (IH w Hnodup) as (w1 & Hrun & Hdata & Hrest).
    exists w1. split_and!; [done| |].
    + intros group p g Hin Hg. apply elem_of_cons in Hin as [[= -> ->]|Hin];
        [congruence|by apply Hdata].
    + intros p Hin. apply not_elem_of_cons in Hin as [Hne Hin]. by apply Hrest.
Qed.

Lemma elem_of_visits w group p :
  group ∈ groups_of_self w → p ∈ params group →
  (group, p) ∈ (group ← groups_of_self w ; pair group <$> params group).
Proof.
  intros Hgroup Hp. apply list_elem_of_bind. exists group. split; [|done].
  by apply list_elem_of_fmap_2.
Qed.

Lemma first_step_perturbed :
  ∀ w zg n,
    NoDup (all_params w) →
    (_grad_norm w).1 = Returns n →
    ∃ w',
      first_step zg w = (Returns (), w') ∧
      ∀ group p g,
        group ∈ groups_of_self w → p ∈ params group →
        grad (tensors w !!! p) = Some g →
        data (tensors w' !!! p) =
          t_add (data (tensors w !!! p))
                (e_w (adaptive group) (tensors w !!! p) g
                     (s_div (rho group) (s_add n s_eps))) ∧
        old_p w' p = Some (data (tensors w !!! p)).
Proof.
  intros w zg n Hnodup Hn.
  assert (Hfalse : ∃ w1, first_step false w = (Returns (), w1) ∧
            ∀ group p g,
              group ∈ groups_of_self w → p ∈ params group →
              grad (tensors w !!! p) = Some g →
              data (tensors w1 !!! p) =
                t_add (data (tensors w !!! p))
                      (e_w (adaptive group) (tensors w !!! p) g
                           (s_div (rho group) (s_add n s_eps))) ∧
              old_p w1 p = Some (data (tensors w !!! p))).
  { rewrite first_step_run, _grad_norm_mode, Hn. rewrite bind_run.
    pose proof (for_each_nested (groups_of_self (set_grad_mode false w)) params
      (λ group, perturb group (s_div (rho group) (s_add n s_eps)))
      (set_grad_mode false w)) as Hflat. simpl in Hflat. rewrite Hflat. clear Hflat.
    change (groups_of_self (set_grad_mode false w)) with (groups_of_self w).
    rewrite all_params_visits in Hnodup.
    destruct (for_each_perturb_data (λ group, s_div (rho group) (s_add n s_eps))
                _ (set_grad_mode false w) Hnodup) as (w1 & Hrun & Hdata & _).
    destruct (for_each_perturb (λ group, s_div (rho group) (s_add n s_eps))
                _ (set_grad_mode false w) Hnodup) as (w1' & Hrun' & _ & _ & _ & Hold & _).
    rewrite Hrun in Hrun'. injection Hrun' as <-. rewrite Hrun. simpl.
    eexists. split; [done|]. intros group p g Hgroup Hp Hg. split.
    - by apply (Hdata group p g (elem_of_visits w group p Hgroup Hp)).
    - apply Hold.
      + apply (list_elem_of_fmap_2 snd _ (group, p)). by apply elem_of_visits.
      + unfold has_grad. simpl. congruence. }
  destruct Hfalse as (w1 & Hrun & Hw1). destruct zg; [|by exists w1].
  destruct (first_step_zero_grad w w1 Hrun) as (w2 & Hrun2 & Hstate & Hdata).
  exists w2. split; [done|]. intros group p g Hgroup Hp Hg.
  destruct (Hw1 group p g Hgroup Hp Hg) as [Hd Ho]. split.
  - by rewrite Hdata.
  - unfold old_p in *. by rewrite Hstate.
Qed.

(** X4.  Over distinct parameters, when [_grad_norm] returns [n],
    [first_step] returns and has perturbed every gradient-bearing
    parameter of every group exactly once: its data is the former data
    plus the [e_w] of line 46, computed from the former data, the gradient
    and the scale [rho / (n + 1e-12)] of its group, and the former data is
    its snapshot.  A parameter without gradient and its entry in
    [self.state] are as they were. *)
Theorem first_step_perturbs_each_once :
  ∀ w zg n,
    NoDup (all_params w) →
    (_grad_norm w).1 = Returns n →
    ∃ w',
      first_step zg w = (Returns (), w') ∧
      (∀ group p g,
         group ∈ groups_of_self w → p ∈ params group →
         grad (tensors w !!! p) = Some g →
         data (tensors w' !!! p) =
           t_add (data (tensors w !!! p))
                 (e_w (adaptive group) (tensors w !!! p) g
                      (s_div (rho group) (s_add n s_eps))) ∧
         old_p w' p = Some (data (tensors w !!! p))) ∧
      (∀ p, grad (tensors w !!! p) = None → untouched p w w').
Proof.
  intros w zg n Hnodup Hn.
  destruct (first_step_perturbed w zg n Hnodup Hn) as (w' & Hrun & Hw').
  exists w'. split_and!; [done..|].
  intros p Hp. pose proof (first_step_untouched zg p w Hp) as Hu.
  by rewrite Hrun in Hu.
Qed.

(** *** [second_step]: snapshots stay *)

(** X5.  The loops of [second_step] remove no snapshot: when they have
    returned, every parameter has the snapshot it had, so running the
    loops again returns and changes no parameter data. *)
Theorem restore_all_keeps_snapshots :
  ∀ w,
    (∀ p, p ∈ all_params w → has_grad w p → is_Some (old_p w p)) →
    ∃ w1 w2,
      restore_all w = (Returns (), w1) ∧
      (∀ p, old_p w1 p = old_p w p) ∧
      restore_all w1 = (Returns (), w2) ∧
      (∀ p, data (tensors w2 !!! p) = data (tensors w1 !!! p)).
Proof.
  intros w Hsnap.
  destruct (for_each_restore snd
    (group ← groups_of_self w ; pair group <$> params group) w)
    as (w1 & Hrun & Hl & Hs & Hg & Ho & Hdata & Hrest).
  { rewrite <-all_params_visits. apply Hsnap. }
  rewrite <-restore_all_run in Hrun.
  assert (Hgroups : groups_of_self w1 = groups_of_self w)
    by by apply groups_of_self_eq.
  assert (Hsnap1 : ∀ p, p ∈ all_params w1 → has_grad w1 p → is_Some (old_p w1 p)).
  { intros p Hin Hp. rewrite Ho. rewrite (all_params_eq _ _ Hgroups) in Hin.
    apply Hsnap; [done|]. unfold has_grad in *. by rewrite <-Hg. }
  destruct (for_each_restore snd
    (group ← groups_of_self w1 ; pair group <$> params group) w1)
    as (w2 & Hrun2 & _ & _ & Hg2 & _ & Hdata2 & Hrest2).
  { rewrite <-all_params_visits. apply Hsnap1. }
  rewrite <-restore_all_run in Hrun2.
  exists w1, w2. split_and!; [done..|].
  intros p. rewrite <-all_params_visits in *.
  destruct (decide (p ∈ all_params w1)) as [Hin|Hin];
    [|by rewrite (lookup_total_eq _ _ _ (Hrest2 p Hin))].
  destruct (grad (tensors w1 !!! p)) as [g|] eqn:Hgp.
  - assert (Hp1 : has_grad w1 p) by (unfold has_grad; congruence).
    assert (Hp : has_grad w p) by (unfold has_grad in *; by rewrite <-Hg).
    pose proof (Hdata2 p Hin Hp1) as Hd2.
    rewrite (all_params_eq _ _ Hgroups) in Hin.
    pose proof (Hdata p Hin Hp) as Hd1. rewrite Ho in Hd2. congruence.
  - pose proof (restore_all_untouched p w1 Hgp) as [Ht _].
    rewrite Hrun2 in Ht. simpl in Ht.
    by rewrite (lookup_total_eq _ _ _ Ht).
Qed.

(** *** A whole [step] *)

Lemma leave_leave m m' {A} (x : Outcome A * World T E) :
  leave m (leave m' x) = leave m x.
Proof. unfold leave; simpl. by rewrite set_grad_mode_twice. Qed.

(** X6.  A whole [step] over distinct parameters.  Let the [first_step]
    inside [step] return in [w1], and let the closure, run on [w1] with
    autograd on, return in [w2] having written gradients only, and only
    for parameters that had one.  Then [step] is [step()] of the library
    on the base optimizer, run on a world [w3] that has the gradients of
    the closure and, for every parameter with a gradient, the data [step]
    started with. *)
Theorem step_updates_at_original_point :
  ∀ (closure : M unit) w0 w1 w2,
    NoDup (all_params w0) →
    first_step true (set_grad_mode false w0) = (Returns (), w1) →
    closure (set_grad_mode true w1) = (Returns (), w2) →
    writes_gradients_only w1 w2 →
    (∀ p, p ∈ all_params w0 → has_grad w2 p → has_grad w0 p) →
    ∃ w3,
      step (Some closure) w0 =
        leave (grad_mode w0) (optimizer_step (self_base_optimizer w2) w3) ∧
      (∀ p, p ∈ all_params w0 → has_grad w2 p →
            data (tensors w3 !!! p) = data (tensors w0 !!! p)) ∧
      (∀ p, grad (tensors w3 !!! p) = grad (tensors w2 !!! p)).
Proof.
  intros closure w0 w1 w2 Hnodup Hfirst Hclosure (Hgroups & Hstate & Hdata) Hgrads.
  destruct (first_step_snapshots true (set_grad_mode false w0) w1 Hnodup Hfirst)
    as [Hgroups1 Hold].
  assert (Hparams : all_params (set_grad_mode false w2) = all_params w0).
  { apply all_params_eq. change (groups_of_self (set_grad_mode false w2))
      with (groups_of_self w2). by rewrite Hgroups, Hgroups1. }
  assert (Hold2 : ∀ p, p ∈ all_params w0 → has_grad w2 p →
            old_p (set_grad_mode false w2) p = Some (data (tensors w0 !!! p))).
  { intros p Hin Hp. unfold old_p; simpl. rewrite Hstate.
    apply (Hold p Hin). by apply Hgrads. }
  destruct (restore_all_returns (set_grad_mode false w2))
    as (w3 & Hrun & Hsnap & Hg & Hstep).
  { intros p Hin Hp. rewrite Hparams in Hin. rewrite (Hold2 p Hin Hp). by eexists. }
  exists w3. split_and!.
  - rewrite step_run, Hfirst, Hclosure, (Hstep false). simpl.
    rewrite leave_leave. f_equal. rewrite bind_run.
    by destruct (optimizer_step (self_base_optimizer w2) w3) as [[[]|e] w4].
  - intros p Hin Hp. specialize (Hold2 p Hin Hp).
    rewrite Hsnap in Hold2; [congruence|by rewrite Hparams|done].
  - intros p. by rewrite Hg.
Qed.


(** *** The adaptive perturbation *)

(** X12.  One group with [adaptive=True] and one parameter [p] with data
    [data P] and gradient [g].  [_grad_norm] returns [n], the norm of the
    stack that holds the norm of [|w| * g], and [first_step] returns with
    the data [data P + (w^2 * g) * scale], where the scale is
    [rho / (n + 1e-12)] and the operations of the scalar arithmetic are
    taken in this order, and with [data P] as snapshot. *)
Theorem first_step_single_parameter_adaptive :
  ∀ w group p P g zg,
    groups_of_self w = [group] →
    params group = [p] →
    adaptive group = true →
    tensors w !! p = Some P →
    grad P = Some g →
    let n := torch_norm [torch_norm (t_mul (t_abs (data P)) g)] in
    let scale := s_div (rho group) (s_add n s_eps) in
    _grad_norm w = (Returns n, w) ∧
    ∃ w',
      first_step zg w = (Returns (), w') ∧
      data (tensors w' !!! p) =
        t_add (data P) (t_mul_scalar (t_mul (t_pow2 (data P)) g) scale) ∧
      old_p w' p = Some (data P).
Proof.
  intros w group p P g zg Hgroups Hp Hadaptive HP Hg n scale.
  pose proof (lookup_total_correct _ _ _ HP) as HP'.
  assert (Hn : _grad_norm w = (Returns n, w)).
  { rewrite _grad_norm_run, Hgroups, Hp. unfold grad_norms.
    by rewrite bind_singleton, Hp, bind_singleton, HP', Hg, Hadaptive. }
  split; [done|].
  destruct (first_step_perturbed w zg n) as (w' & Hrun & Hw').
  { unfold all_params. rewrite Hgroups, bind_singleton, Hp. apply NoDup_singleton. }
  { by rewrite Hn. }
  exists w'. split; [done|].
  destruct (Hw' group p g) as [Hdata Hold];
    [rewrite Hgroups; left|rewrite Hp; left|by rewrite HP'|].
  rewrite HP' in Hdata, Hold. split; [|done].
  rewrite Hdata. unfold e_w. by rewrite Hadaptive.
Qed.

(** *** [select_optimizer]: which names give a [SAM] instance *)

(** X8.  What [select_optimizer] returns is the [SAM] instance exactly
    for the names ["SAM"] and ["SAM_Adam"]; the instance then shares its
    list of groups with its base optimizer. *)
Theorem select_optimizer_returns_SAM :
  ∀ name (model : list loc) (learning_rate momentum : T) (betas : T * T) w o w',
    select_optimizer name model learning_rate momentum betas w = (Returns o, w') →
    (o = SAM_instance ↔ name = "SAM" ∨ name = "SAM_Adam") ∧
    (o = SAM_instance →
       opt_param_groups (self_base_optimizer w') = self_param_groups w').
Proof.
  intros name model learning_rate momentum betas w o w'. unfold select_optimizer.
  assert (Hlib : ∀ (m : M (Optimizer T)),
            (Library <$> m) w = (Returns o, w') → o ≠ SAM_instance).
  { intros m. rewrite fmap_run. destruct (m w) as [[b|e] w1]; [|done].
    by intros [= <- _]. }
  assert (Hsam : ∀ base kwargs,
            SAM (ParamList model) base kwargs w = (Returns o, w') →
            o = SAM_instance ∧
            opt_param_groups (self_base_optimizer w') = self_param_groups w').
  { intros base kwargs. unfold SAM. rewrite bind_run.
    destruct (__init__ _ _ _ _ _ w) as [[[]|e] w1] eqn:Hinit; [|done].
    rewrite ret_run. intros [= <- <-]. split; [done|].
    by destruct (__init___returns _ _ _ _ _ _ _ Hinit) as (_ & ? & ? & ? & _ & _ & ->). }
  repeat match goal with
  | |- context [String.eqb name ?s] => destruct (String.eqb_spec name s) as [->|?]
  end; intros Hrun;
    try (apply Hlib in Hrun; split; [split; [done|by intros [|]]|done]);
    try (apply Hsam in Hrun as [-> ?]; split; [split; auto|done]).
  done.
Qed.
End further_properties.

(** ** Doubling on binary64 numbers

    Multiplying by a power of two is exact on binary64 numbers as long
    as nothing leaves the range of the normal numbers: the mantissa
    stays and the exponent moves.  The operations of the norm by the
    book commute with it, by the specification of the primitive floats. *)

Section doubling.
Local Open Scope Z_scope.

(** *** Rounding *)

Lemma shr_lift mrs e n n' k :
  n' = n ∨ (n ≤ 0 ∧ n' ≤ 0) →
  shr mrs (e + k) n' = ((shr mrs e n).1, (shr mrs e n).2 + k).
Proof.
  intros [->|[Hn Hn']].
  - destruct n; simpl; f_equal; lia.
  - destruct n as [|p|p], n' as [|p'|p']; simpl; try done; lia.
Qed.

Lemma fexp_ge_emin x : emin ≤ fexp prec emax x.
Proof. unfold fexp. lia. Qed.

Lemma shr_snd_ge mrs e n :
  emin ≤ e ∨ (0 < n ∧ emin ≤ e + n) →
  emin ≤ (shr mrs e n).2.
Proof. destruct n; simpl; lia. Qed.

Lemma binary_round_aux_lift s (m : Z) e l k :
  0 ≤ k →
  emin ≤ Zdigits2 m + e - prec ∨ fexp prec emax (Zdigits2 m + e) ≤ e →
  match binary_round_aux prec emax s m e l with
  | S754_finite _ _ e'' => e'' + k ≤ emax - prec
  | _ => True
  end →
  binary_round_aux prec emax s m (e + k) l = SF_lift k (binary_round_aux prec emax s m e l).
Proof.
  intros Hk Hin. unfold binary_round_aux, shr_fexp.
  rewrite (shr_lift _ e (fexp prec emax (Zdigits2 m + e) - e)).
  2:{ unfold fexp in *. pose proof (eq_refl : emin = -1074).
      pose proof (eq_refl : prec = 53). lia. }
  assert (He' : emin ≤
                (shr (shr_record_of_loc m l) e (fexp prec emax (Zdigits2 m + e) - e)).2).
  { apply shr_snd_ge. pose proof (fexp_ge_emin (Zdigits2 m + e)). lia. }
  destruct (shr (shr_record_of_loc m l) e _) as [mrs' e']. simpl in *.
  set (m1 := round_nearest_even (shr_m mrs') (loc_of_shr_record mrs')).
  rewrite (shr_lift _ e' (fexp prec emax (Zdigits2 m1 + e') - e')).
  2:{ unfold fexp in *. pose proof (eq_refl : emin = -1074).
      pose proof (eq_refl : prec = 53). lia. }
  match goal with |- context [shr ?r e' ?n] =>
    destruct (shr r e' n) as [mrs'' e'']
  end. simpl.
  destruct (shr_m mrs'') as [|m''|m'']; try done.
  destruct (Z.leb_spec e'' (emax - prec)) as [Hle|Hgt].
  - intros Hroom. simpl. by rewrite (proj2 (Z.leb_le _ _)) by done.
  - intros _. simpl. by rewrite (proj2 (Z.leb_gt _ _)) by lia.
Qed.

(** Digits. *)
Lemma digits2_pos_size p : digits2_pos p = Pos.size p.
Proof. induction p; simpl; by rewrite ?IHp. Qed.

Lemma digits2_pos_le p q : (p ≤ q)%positive → (digits2_pos p ≤ digits2_pos q)%positive.
Proof.
  rewrite !digits2_pos_size. intros Hpq.
  destruct (Pos.leb_spec (Pos.size p) (Pos.size q)) as [|Hlt]; [done|].
  exfalso.
  pose proof (Pos.size_gt q) as Hq. pose proof (Pos.size_le p) as Hp.
  apply Pos2Z.pos_lt_pos in Hq. apply Pos2Z.pos_le_pos in Hp.
  rewrite Pos2Z.inj_pow in Hq, Hp.
  assert (Hpow : 2 ^ (Z.pos (Pos.size q) + 1) ≤ 2 ^ Z.pos (Pos.size p)).
  { apply Z.pow_le_mono_r; lia. }
  rewrite Z.pow_add_r in Hpow by lia. lia.
Qed.

Lemma Zdigits2_nonneg z : 0 ≤ Zdigits2 z.
Proof. destruct z; simpl; lia. Qed.

(** A valid number above the least exponent has [prec] digits. *)
Lemma valid_normal s m e :
  valid_binary (S754_finite s m e) = true →
  emin < e →
  Z.pos (digits2_pos m) = prec ∧ e ≤ emax - prec.
Proof.
  simpl. unfold bounded, canonical_mantissa, fexp.
  intros [Hc He]%andb_true_iff Hlt.
  apply Z.eqb_eq in Hc. apply Z.leb_le in He. lia.
Qed.

Lemma valid_canonical s m e :
  valid_binary (S754_finite s m e) = true →
  fexp prec emax (Z.pos (digits2_pos m) + e) = e ∧ emin ≤ e ∧ e ≤ emax - prec.
Proof.
  simpl. unfold bounded, canonical_mantissa.
  intros [Hc He]%andb_true_iff.
  apply Z.eqb_eq in Hc. apply Z.leb_le in He.
  pose proof (fexp_ge_emin (Z.pos (digits2_pos m) + e)). lia.
Qed.

(** *** Multiplication *)

Lemma SF64mul_lift sx mx ex sy my ey a b :
  0 ≤ a → 0 ≤ b →
  emin ≤ Z.pos (digits2_pos (mx * my)) + (ex + ey) - prec →
  match SF64mul (S754_finite sx mx ex) (S754_finite sy my ey) with
  | S754_finite _ _ e'' => e'' + (a + b) ≤ emax - prec
  | _ => True
  end →
  SF64mul (S754_finite sx mx (ex + a)) (S754_finite sy my (ey + b)) =
  SF_lift (a + b) (SF64mul (S754_finite sx mx ex) (S754_finite sy my ey)).
Proof.
  intros Ha Hb Hin Hroom. unfold SF64mul, SFmul in *.
  replace (ex + a + (ey + b)) with (ex + ey + (a + b)) by lia.
  apply binary_round_aux_lift; [lia|by left|done].
Qed.

Lemma digits2_pos_shift52 m :
  Z.pos (digits2_pos (4503599627370496 * m)) = 52 + Z.pos (digits2_pos m).
Proof. cbv [Pos.mul digits2_pos]. fold digits2_pos. lia. Qed.

Lemma iter_shr_52 m :
  SpecFloat.iter_pos shr_1 52 (shr_record_of_loc (Z.pos (4503599627370496 * m)) loc_Exact)
  = shr_record_of_loc (Z.pos m) loc_Exact.
Proof. reflexivity. Qed.

(** Multiplication by [1.0] is exact. *)
Lemma SF64mul_one s m e :
  valid_binary (S754_finite s m e) = true →
  SF64mul (S754_finite false 4503599627370496 (-52)) (S754_finite s m e) =
  S754_finite s m e.
Proof.
  intros (Hc & Hmin & Hmax)%valid_canonical.
  unfold SF64mul, SFmul, binary_round_aux, shr_fexp.
  unfold Zdigits2 at 1. rewrite digits2_pos_shift52.
  replace (52 + Z.pos (digits2_pos m) + (-52 + e)) with (Z.pos (digits2_pos m) + e) by lia.
  rewrite Hc. replace (e - (-52 + e)) with 52 by lia.
  unfold shr at 1. rewrite !iter_shr_52.
  cbn [shr_m loc_of_shr_record round_nearest_even Zdigits2 shr_record_of_loc].
  replace (Z.pos (digits2_pos m) + (-52 + e + 52)) with (Z.pos (digits2_pos m) + e) by lia.
  rewrite Hc. replace (e - (-52 + e + 52)) with 0 by lia.
  cbn [shr shr_m]. rewrite (proj2 (Z.leb_le _ _)) by lia.
  destruct s; simpl; f_equal; lia.
Qed.

(** Multiplication by [2.0] of a normal number adds one to the exponent. *)
Lemma SF64mul_two s m e :
  valid_binary (S754_finite s m e) = true →
  emin < e → e + 1 ≤ emax - prec →
  SF64mul (S754_finite false 4503599627370496 (-51)) (S754_finite s m e) =
  S754_finite s m (e + 1).
Proof.
  intros Hv Hmin Hmax. destruct (valid_normal _ _ _ Hv Hmin) as [Hd _].
  pose proof (SF64mul_lift false 4503599627370496 (-52) s m e 1 0) as Hlift.
  rewrite (SF64mul_one s m e Hv) in Hlift. simpl SF_lift in Hlift.
  replace (e + 0) with e in Hlift by lia.
  replace (e + (1 + 0)) with (e + 1) in Hlift by lia.
  apply Hlift; [lia..| |lia].
  rewrite digits2_pos_shift52. pose proof (eq_refl : emin = -1074). lia.
Qed.

(** *** Addition *)

Lemma shl_align_fst_ge mx ex ez : (mx ≤ (shl_align mx ex ez).1)%positive.
Proof.
  unfold shl_align. destruct (ez - ex) as [| |d]; simpl; [lia..|].
  apply (Pos.iter_invariant d _ xO (λ y, (mx ≤ y)%positive)); lia.
Qed.

Lemma shl_align_lift mx ex ez k :
  (shl_align mx (ex + k) (ez + k)).1 = (shl_align mx ex ez).1.
Proof.
  unfold shl_align. replace (ez + k - (ex + k)) with (ez - ex) by lia.
  by destruct (ez - ex).
Qed.

Lemma SF64add_lift mx ex my ey k :
  0 ≤ k →
  valid_binary (S754_finite false mx ex) = true → emin < ex →
  valid_binary (S754_finite false my ey) = true → emin < ey →
  match SF64add (S754_finite false mx ex) (S754_finite false my ey) with
  | S754_finite _ _ e'' => e'' + k ≤ emax - prec
  | _ => True
  end →
  SF64add (S754_finite false mx (ex + k)) (S754_finite false my (ey + k)) =
  SF_lift k (SF64add (S754_finite false mx ex) (S754_finite false my ey)).
Proof.
  intros Hk Hvx Hnx Hvy Hny.
  destruct (valid_normal _ _ _ Hvx Hnx) as [Hdx _].
  unfold SF64add, SFadd. rewrite Z.add_min_distr_r, !shl_align_lift.
  set (ez := Z.min ex ey).
  pose proof (shl_align_fst_ge mx ex ez) as Hge.
  set (a := (shl_align mx ex ez).1) in *. set (b := (shl_align my ey ez).1).
  change (cond_Zopp false (Z.pos a) + cond_Zopp false (Z.pos b)) with (Z.pos (a + b)).
  unfold binary_normalize, binary_round.
  assert (Hd : prec ≤ Z.pos (digits2_pos (a + b))).
  { rewrite <-Hdx. apply Pos2Z.pos_le_pos, digits2_pos_le. lia. }
  assert (Hez : emin < ez) by (subst ez; lia).
  assert (Hshl : ∀ j, 0 ≤ j →
            shl_align (a + b) (ez + j) (fexp prec emax (Z.pos (digits2_pos (a + b)) + (ez + j)))
            = ((a + b)%positive, ez + j)).
  { intros j Hj. unfold shl_align, fexp.
    destruct (Z.max _ _ - (ez + j)) eqn:Hdiff; [done..|]. lia. }
  pose proof (Hshl 0 ltac:(lia)) as Hshl0. rewrite Z.add_0_r in Hshl0.
  rewrite (Hshl k Hk), Hshl0.
  intros Hroom. apply binary_round_aux_lift; [done| |done].
  left. simpl. lia.
Qed.

(** *** The square root *)

Lemma SF64sqrt_lift m e :
  valid_binary (S754_finite false m e) = true →
  match SF64sqrt (S754_finite false m e) with
  | S754_finite _ _ e'' => e'' + 1 ≤ emax - prec
  | _ => True
  end →
  SF64sqrt (S754_finite false m (e + 2)) = SF_lift 1 (SF64sqrt (S754_finite false m e)).
Proof.
  intros (_ & Hmin & Hmax)%valid_canonical.
  unfold SF64sqrt, SFsqrt, SFsqrt_core_binary.
  set (d := Zdigits2 (Z.pos m)).
  assert (Hd : 0 < d) by (subst d; simpl; lia).
  set (e1 := Z.min (fexp prec emax (Z.div2 (d + e + 1))) (Z.div2 e)).
  assert (He1 : Z.min (fexp prec emax (Z.div2 (d + (e + 2) + 1))) (Z.div2 (e + 2))
                = e1 + 1).
  { subst e1. unfold fexp. rewrite !Z.div2_div.
    pose proof (eq_refl : emin = -1074). pose proof (eq_refl : prec = 53).
    replace (d + (e + 2) + 1) with (d + e + 1 + 1 * 2) by lia.
    replace (e + 2) with (e + 1 * 2) by lia.
    rewrite !Z.div_add by lia.
    assert (-537 ≤ (d + e + 1) / 2) by (apply Z.div_le_lower_bound; lia).
    lia. }
  rewrite He1. replace (e + 2 - 2 * (e1 + 1)) with (e - 2 * e1) by lia.
  destruct (Z.sqrtrem _) as [q r].
  intros Hroom. apply binary_round_aux_lift; [lia| |done].
  left. pose proof (Zdigits2_nonneg q).
  assert (-600 ≤ e1);
    [|pose proof (eq_refl : emin = -1074); pose proof (eq_refl : prec = 53); lia].
  subst e1. unfold fexp. rewrite !Z.div2_div.
  pose proof (eq_refl : emin = -1074). pose proof (eq_refl : prec = 53).
  assert (-537 ≤ (d + e + 1) / 2) by (apply Z.div_le_lower_bound; lia).
  assert (-537 ≤ e / 2) by (apply Z.div_le_lower_bound; lia).
  lia.
Qed.

(** *** Primitive floats *)

Lemma Prim2SF_two : Prim2SF 2 = S754_finite false 4503599627370496 (-51).
Proof. reflexivity. Qed.

Lemma Prim2SF_one : Prim2SF 1 = S754_finite false 4503599627370496 (-52).
Proof. reflexivity. Qed.

Lemma Prim2SF_zero : Prim2SF 0 = S754_zero false.
Proof. reflexivity. Qed.

Lemma exponent_within_finite lo hi x s m e :
  exponent_within lo hi x = true → Prim2SF x = S754_finite s m e →
  lo ≤ e ∧ e ≤ hi ∧ valid_binary (S754_finite s m e) = true.
Proof.
  unfold exponent_within. intros Hx Heq. rewrite Heq in Hx.
  apply andb_true_iff in Hx as [?%Z.leb_le ?%Z.leb_le].
  split_and!; [done..|]. rewrite <-Heq. apply Prim2SF_valid.
Qed.

(** Multiplication by [1.0] is the identity. *)
Lemma float_mul_one (x : float) : (1 * x)%float = x.
Proof.
  apply Prim2SF_inj. rewrite mul_spec, Prim2SF_one.
  pose proof (Prim2SF_valid x) as Hv.
  destruct (Prim2SF x) as [s|s| |s m e]; try done.
  by apply SF64mul_one.
Qed.

(** Multiplication by [2.0] of a zero or a normal number. *)
Lemma float_mul_two (x : float) :
  exponent_within (-1073) 970 x = true →
  Prim2SF (2 * x) = SF_lift 1 (Prim2SF x).
Proof.
  intros Hx. rewrite mul_spec, Prim2SF_two.
  destruct (Prim2SF x) as [s|s| |s m e] eqn:Heq; try done.
  destruct (exponent_within_finite _ _ _ _ _ _ Hx Heq) as (Hlo & Hhi & Hv).
  apply SF64mul_two; [done|..]; pose proof (eq_refl : emin = -1074);
    pose proof (eq_refl : emax = 1024); pose proof (eq_refl : prec = 53); lia.
Qed.

Lemma binary_round_aux_nonneg m e l :
  match binary_round_aux prec emax false m e l with
  | S754_zero s | S754_finite s _ _ => s = false
  | _ => True
  end.
Proof.
  unfold binary_round_aux.
  destruct (shr_fexp prec emax m e l) as [mrs1 e1].
  destruct (shr_fexp prec emax _ e1 loc_Exact) as [mrs2 e2].
  destruct (shr_m mrs2); try done. by destruct (e2 <=? emax - prec).
Qed.

(** A square that is in range is zero or positive. *)
Lemma float_square_nonneg lo hi (x : float) :
  exponent_within lo hi (x * x) = true → SFnonneg (Prim2SF (x * x)).
Proof.
  unfold exponent_within. rewrite mul_spec.
  destruct (Prim2SF x) as [s|s| |s m e]; try done.
  - by destruct s.
  - unfold SF64mul, SFmul. replace (xorb s s) with false by by destruct s.
    pose proof (binary_round_aux_nonneg (Z.pos (m * m)) (e + e) loc_Exact) as Hs.
    by destruct (binary_round_aux _ _ _ _ _ _).
Qed.

(** The square of the double of [x] is four times the square of [x]. *)
Lemma float_square_lift (x x' : float) :
  Prim2SF x' = SF_lift 1 (Prim2SF x) →
  exponent_within (-537) 970 x = true →
  exponent_within (-1073) 969 (x * x) = true →
  Prim2SF (x' * x') = SF_lift 2 (Prim2SF (x * x)).
Proof.
  intros Hx' Hx Hsq. rewrite !mul_spec, Hx'.
  unfold exponent_within in Hsq. rewrite mul_spec in Hsq.
  destruct (Prim2SF x) as [s|s| |s m e] eqn:Heq; try done.
  destruct (exponent_within_finite _ _ _ _ _ _ Hx Heq) as (Hlo & Hhi & Hv).
  pose proof (eq_refl : emin = -1074). pose proof (eq_refl : emax = 1024).
  pose proof (eq_refl : prec = 53).
  destruct (valid_normal _ _ _ Hv) as [Hd _]; [lia|].
  simpl SF_lift at 1 2. apply (SF64mul_lift s m e s m e 1 1); [lia..| |].
  - assert (Z.pos (digits2_pos m) ≤ Z.pos (digits2_pos (m * m))); [|lia].
    apply Pos2Z.pos_le_pos, digits2_pos_le. nia.
  - destruct (SF64mul _ _); try done.
    apply andb_true_iff in Hsq as [_ ?%Z.leb_le]. lia.
Qed.

(** The sum of two numbers that are zero or positive and normal. *)
Lemma float_add_nonneg lo hi (a q : float) :
  SFnonneg (Prim2SF a) → SFnonneg (Prim2SF q) →
  exponent_within lo hi (a + q) = true → SFnonneg (Prim2SF (a + q)).
Proof.
  unfold exponent_within. rewrite add_spec.
  destruct (Prim2SF a) as [sa|sa| |sa ma ea], (Prim2SF q) as [sq|sq| |sq mq eq];
    simpl; try done; try (intros -> ->; done).
  intros -> ->. unfold SF64add, SFadd, binary_normalize, binary_round. simpl.
  destruct (shl_align _ _ _) as [mz ez].
  pose proof (binary_round_aux_nonneg (Z.pos mz) ez loc_Exact) as Hs.
  by destruct (binary_round_aux _ _ _ _ _ _).
Qed.

Lemma float_add_lift (a a' q q' : float) :
  Prim2SF a' = SF_lift 2 (Prim2SF a) →
  Prim2SF q' = SF_lift 2 (Prim2SF q) →
  SFnonneg (Prim2SF a) → exponent_within (-1073) 969 a = true →
  SFnonneg (Prim2SF q) → exponent_within (-1073) 969 q = true →
  exponent_within (-1073) 969 (a + q) = true →
  Prim2SF (a' + q') = SF_lift 2 (Prim2SF (a + q)).
Proof.
  intros Ha' Hq' Hsa Ha Hsq Hq Hsum. rewrite !add_spec, Ha', Hq'.
  unfold exponent_within in Hsum. rewrite add_spec in Hsum.
  pose proof (eq_refl : emin = -1074). pose proof (eq_refl : emax = 1024).
  pose proof (eq_refl : prec = 53).
  destruct (Prim2SF a) as [sa|sa| |sa ma ea] eqn:Heqa; try done;
    destruct (Prim2SF q) as [sq|sq| |sq mq eq] eqn:Heqq; try done;
    simpl in Hsa, Hsq; subst; try done.
  destruct (exponent_within_finite _ _ _ _ _ _ Ha Heqa) as (? & ? & Hva).
  destruct (exponent_within_finite _ _ _ _ _ _ Hq Heqq) as (? & ? & Hvq).
  simpl SF_lift at 1 2. apply SF64add_lift; [lia|done|lia|done|lia|].
  destruct (SF64add _ _); try done.
  apply andb_true_iff in Hsum as [_ ?%Z.leb_le]. lia.
Qed.

Lemma float_sqrt_lift (a a' : float) :
  Prim2SF a' = SF_lift 2 (Prim2SF a) →
  SFnonneg (Prim2SF a) →
  exponent_within (-1073) 970 (sqrt a) = true →
  Prim2SF (sqrt a') = SF_lift 1 (Prim2SF (sqrt a)).
Proof.
  intros Ha' Hsa Hroot. rewrite !sqrt_spec, Ha'.
  unfold exponent_within in Hroot. rewrite sqrt_spec in Hroot.
  pose proof (Prim2SF_valid a) as Hv.
  pose proof (eq_refl : emin = -1074). pose proof (eq_refl : emax = 1024).
  pose proof (eq_refl : prec = 53).
  destruct (Prim2SF a) as [sa|sa| |sa ma ea] eqn:Heqa; try done.
  simpl in Hsa; subst. simpl SF_lift at 1. apply SF64sqrt_lift; [done|].
  destruct (SF64sqrt _); try done.
  apply andb_true_iff in Hroot as [_ ?%Z.leb_le]. lia.
Qed.

(** *** The norm by the book *)

Lemma foldl_squares_double (x : Tensor float) :
  ∀ acc acc' : float,
    Prim2SF acc' = SF_lift 2 (Prim2SF acc) →
    SFnonneg (Prim2SF acc) →
    exponent_within (-1073) 969 acc = true →
    squares_in_range acc x = true →
    Prim2SF (foldl (λ a xi, a + xi * xi)%float acc' (t_scale 2%float x)) =
      SF_lift 2 (Prim2SF (foldl (λ a xi, a + xi * xi)%float acc x)) ∧
    SFnonneg (Prim2SF (foldl (λ a xi, a + xi * xi)%float acc x)).
Proof.
  induction x as [|xi x IH]; intros acc acc' Hacc' Hsign Hacc Hrange; [done|].
  simpl in Hrange.
  apply andb_true_iff in Hrange as [[[Hxi Hsq]%andb_true_iff Hsum]%andb_true_iff Hrest].
  assert (Hxi' : exponent_within (-1073) 970 xi = true).
  { unfold exponent_within in *. destruct (Prim2SF xi); try done.
    apply andb_true_iff in Hxi as [?%Z.leb_le ?%Z.leb_le].
    apply andb_true_iff. split; [apply Z.leb_le; lia|by apply Z.leb_le]. }
  simpl. apply IH; [|by eapply float_add_nonneg; [|eapply float_square_nonneg|]|done..].
  apply float_add_lift; try done.
  - apply float_square_lift; [by apply float_mul_two|done..].
  - by eapply float_square_nonneg.
Qed.

Lemma t_scale_one (g : Tensor float) : t_scale 1%float g = g.
Proof.
  unfold t_scale. induction g as [|gi g IH]; [done|].
  simpl. f_equal; [apply float_mul_one|exact IH].
Qed.

(** On binary64 numbers the norm by the book doubles with its argument
    when the squares, their sums and the root stay in range. *)
Lemma t_norm_double (x : Tensor float) :
  norm_in_range x = true → t_norm (t_scale 2%float x) = (2 * t_norm x)%float.
Proof.
  intros [Hsquares Hroot]%andb_true_iff.
  destruct (foldl_squares_double x 0%float 0%float) as [Hsum Hsign]; [done..|].
  apply Prim2SF_inj. rewrite float_mul_two by done.
  by apply float_sqrt_lift.
Qed.
End doubling.

(** *** [_grad_norm] on binary64 numbers *)

Section doubling_gradients.
Context {E : Type} `{Torch float E}.
Implicit Types w : World float E.

End doubling_gradients.

(** ** The further statements at concrete worlds *)

Lemma init_shares_groups_witness :
  let w' := (__init__ (ParamList [1%positive; 2%positive]) rec_constructor
               s_rho_default false {["lr" := HFloat 1%float]}
               (blank (tensors two_params))).2 in
  opt_param_groups (self_base_optimizer w') = self_param_groups w' ∧
  lists w' !!! opt_param_groups (self_base_optimizer w') = groups_of_self w' ∧
  (∀ k v, opt_defaults (self_base_optimizer w') !! k = Some v →
          self_defaults w' !! k = Some v) ∧
  s_geb s_rho_default (s_zero : float) = true.
Proof.
  apply (init_shares_groups (ParamList [1%positive; 2%positive]) rec_constructor
           s_rho_default false {["lr" := HFloat 1%float]}
           (blank (tensors two_params))).
  by vm_compute.
Defined.

Lemma first_step_fails_early_witness :
  first_step true empty_first_group = (Raises IndexError, empty_first_group) ∧
  ∃ w', first_step false two_params = (Returns (), w') ∧
        same_attributes two_params w' ∧
        (false = false →
         ∀ p, grad (tensors w' !!! p) = grad (tensors two_params !!! p)).
Proof.
  split.
  - apply (first_step_fails_early true empty_first_group). by vm_compute.
  - apply (first_step_fails_early false two_params) with (n := 5%float).
    by vm_compute.
Defined.

Lemma no_gradient_no_step_witness :
  let e := RuntimeError "stack expects a non-empty TensorList" in
  _grad_norm no_grads = (Raises e, no_grads) ∧
  (∀ zg, first_step zg no_grads = (Raises e, no_grads)) ∧
  (∀ closure, step (Some closure) no_grads = (Raises e, no_grads)).
Proof.
  apply (no_gradient_no_step no_grads (mkGroup [1%positive] s_rho_default false ∅) []).
  - reflexivity.
  - discriminate.
  - intros p Hin.
    replace (all_params no_grads) with [1%positive] in Hin by (by vm_compute).
    apply elem_of_cons in Hin as [->|Hin]; [by vm_compute|].
    by apply elem_of_nil in Hin.
Defined.

Lemma two_params_NoDup : NoDup (all_params two_params).
Proof.
  replace (all_params two_params) with [1%positive; 2%positive] by (by vm_compute).
  apply NoDup_cons. split; [|apply NoDup_singleton].
  intros Hin. apply elem_of_cons in Hin as [Hin|Hin]; [discriminate|].
  by apply elem_of_nil in Hin.
Qed.

Lemma first_step_perturbs_each_once_witness :
  ∃ w',
    first_step false two_params = (Returns (), w') ∧
    (∀ group p g,
       group ∈ groups_of_self two_params → p ∈ params group →
       grad (tensors two_params !!! p) = Some g →
       data (tensors w' !!! p) =
         t_add (data (tensors two_params !!! p))
               (e_w (adaptive group) (tensors two_params !!! p) g
                    (s_div (rho group) (s_add 5%float s_eps))) ∧
       old_p w' p = Some (data (tensors two_params !!! p))) ∧
    (∀ p, grad (tensors two_params !!! p) = None → untouched p two_params w').
Proof.
  apply (first_step_perturbs_each_once two_params false 5%float).
  - exact two_params_NoDup.
  - by vm_compute.
Defined.

Lemma restore_all_keeps_snapshots_witness :
  let w := (closure_1 two_params_perturbed).2 in
  ∃ w1 w2,
    restore_all w = (Returns (), w1) ∧
    (∀ p, old_p w1 p = old_p w p) ∧
    restore_all w1 = (Returns (), w2) ∧
    (∀ p, data (tensors w2 !!! p) = data (tensors w1 !!! p)).
Proof.
  apply (restore_all_keeps_snapshots (closure_1 two_params_perturbed).2).
  intros p Hin Hp.
  replace (all_params (closure_1 two_params_perturbed).2)
    with [1%positive; 2%positive] in Hin by (by vm_compute).
  apply elem_of_cons in Hin as [->|Hin]; [vm_compute; by eexists|].
  apply elem_of_cons in Hin as [->|Hin]; [|by apply elem_of_nil in Hin].
  exfalso. apply Hp. by vm_compute.
Defined.

Lemma step_updates_at_original_point_witness :
  ∃ w3,
    step (Some closure_1) two_params =
      leave (grad_mode two_params)
        (optimizer_step (self_base_optimizer two_params) w3) ∧
    data (tensors w3 !!! 1%positive) = [1; 2]%float ∧
    grad (tensors w3 !!! 1%positive) = Some [1; 1]%float.
Proof.
  set (w1 := (first_step true (set_grad_mode false two_params)).2).
  destruct (closure_of_writes_gradients_only [(1%positive, Some [1; 1]%float)] w1)
    as (w2 & Hclosure & Hw2).
  assert (Hw2eq : w2 = (closure_1 (set_grad_mode true w1)).2)
    by (unfold closure_1; by rewrite Hclosure).
  destruct (step_updates_at_original_point closure_1 two_params w1 w2)
    as (w3 & Hstep & Hdata & Hgrad).
  - exact two_params_NoDup.
  - subst w1. by vm_compute.
  - exact Hclosure.
  - exact Hw2.
  - intros p Hin Hp.
    replace (all_params two_params) with [1%positive; 2%positive] in Hin
      by (by vm_compute).
    apply elem_of_cons in Hin as [->|Hin]; [unfold has_grad; by vm_compute|].
    apply elem_of_cons in Hin as [->|Hin]; [|by apply elem_of_nil in Hin].
    exfalso. apply Hp. rewrite Hw2eq. by vm_compute.
  - exists w3. split_and!.
    + exact Hstep.
    + rewrite Hdata; [reflexivity|vm_compute; left|].
      unfold has_grad. rewrite Hw2eq. by vm_compute.
    + rewrite Hgrad, Hw2eq. by vm_compute.
Defined.


Lemma select_optimizer_returns_SAM_witness :
  let w' := (select_optimizer "SAM" [1%positive; 2%positive] 1%float 0%float
               (0, 0)%float (blank (tensors two_params))).2 in
  (SAM_instance (T:=float) = SAM_instance ↔ "SAM" = "SAM" ∨ "SAM" = "SAM_Adam") ∧
  (SAM_instance (T:=float) = SAM_instance →
   opt_param_groups (self_base_optimizer w') = self_param_groups w').
Proof.
  apply (select_optimizer_returns_SAM "SAM" [1%positive; 2%positive] 1%float 0%float
           (0, 0)%float (blank (tensors two_params))).
  by vm_compute.
Defined.

Lemma first_step_single_parameter_adaptive_witness :
  let w := adaptive_param in
  _grad_norm w = (Returns 5%float, w) ∧
  ∃ w',
    first_step false w = (Returns (), w') ∧
    data (tensors w' !!! 1%positive) =
      t_add [1; -1]%float
            (t_mul_scalar (t_mul (t_pow2 [1; -1]%float) [3; 4]%float)
               (s_div s_rho_default (s_add 5%float s_eps))) ∧
    old_p w' 1%positive = Some [1; -1]%float.
Proof.
  intros w.
  exact (first_step_single_parameter_adaptive w
           (mkGroup [1%positive] s_rho_default true ∅) 1%positive
           (mkParam [1; -1]%float (Some [3; 4]%float) 0) [3; 4]%float false
           eq_refl eq_refl eq_refl eq_refl eq_refl).
Defined.

